(** * Understand Salah: transcript buffers, chunk batching and the
      recognise/translate pipeline

    A shallow embedding of the JavaScript sources:
    - the compact display buffer ([manageCompactTranscription]),
    - the cumulative display buffer ([manageCumulativeTranscription]),
    - the client's socket handlers around recording,
    - the server's socket handlers and [processAudioChunk].

    JavaScript strings are sequences of UTF-16 code units; [length],
    [lastIndexOf], [substring] and [slice] all count code units, so a string
    is embedded as the list of its code units. *)

From Stdlib Require Import ZArith NArith Ascii String Lia.
From stdpp Require Import base list.

Local Open Scope Z_scope.

(** ** JavaScript strings *)

Module JS.

Abbreviation jsstring := (list N).

(** A source literal made of ASCII characters, as code units. *)
Definition lit (s : string) : jsstring :=
  map N_of_ascii (list_ascii_of_string s).

Definition space : N := 0x20%N.
Definition newline : N := 0x0A%N.
Definition ellipsis : jsstring := lit "...".
Definition paragraphBreak : jsstring := [newline; newline].

(** WhiteSpace and LineTerminator code points, the set [trim] strips. *)
Definition isWhiteSpace (c : N) : bool :=
  ((0x09 <=? c) && (c <=? 0x0D) || (c =? 0x20) || (c =? 0xA0)
   || (c =? 0x1680) || (0x2000 <=? c) && (c <=? 0x200A)
   || (c =? 0x2028) || (c =? 0x2029) || (c =? 0x202F) || (c =? 0x205F)
   || (c =? 0x3000) || (c =? 0xFEFF))%N.

Fixpoint trimStart (s : jsstring) : jsstring :=
  match s with
  | c :: rest => if isWhiteSpace c then trimStart rest else s
  | [] => []
  end.

Definition trimEnd (s : jsstring) : jsstring :=
  reverse (trimStart (reverse s)).

Definition trim (s : jsstring) : jsstring := trimEnd (trimStart s).

(** [s.length] as the integer the source computes with. *)
Definition len (s : jsstring) : Z := Z.of_nat (length s).

Fixpoint startsWith (pat s : jsstring) : bool :=
  match pat, s with
  | [], _ => true
  | p :: pat', c :: s' => (p =? c)%N && startsWith pat' s'
  | _ :: _, [] => false
  end.

(** The descending scan of [lastIndexOf]: the greatest index [<= i] at which
    [pat] occurs, or [-1]. *)
Fixpoint searchDown (s pat : jsstring) (i : nat) : Z :=
  if startsWith pat (drop i s) then Z.of_nat i
  else match i with
       | O => -1
       | S j => searchDown s pat j
       end.

(** [s.lastIndexOf(pat, position)]: the start is [position] clamped between
    [0] and [s.length - pat.length]. *)
Definition lastIndexOf (s pat : jsstring) (position : Z) : Z :=
  if len s <? len pat then -1
  else searchDown s pat (Z.to_nat (Z.min (Z.max position 0) (len s - len pat))).

(** [s.substring(start)]: [start] is clamped between [0] and [s.length]. *)
Definition substring (s : jsstring) (start : Z) : jsstring :=
  drop (Z.to_nat (Z.min (Z.max start 0) (len s))) s.

(** [s.slice(start)]: a negative [start] counts from the end. *)
Definition slice (s : jsstring) (start : Z) : jsstring :=
  let from := if start <? 0 then Z.max (len s + start) 0
              else Z.min start (len s) in
  drop (Z.to_nat from) s.

(** [xs.join(sep)] on an array of strings. *)
Fixpoint join (sep : jsstring) (xs : list jsstring) : jsstring :=
  match xs with
  | [] => []
  | [x] => x
  | x :: rest => x ++ sep ++ join sep rest
  end.

(** Truthiness of a string value: the empty string is falsy. *)
Definition truthy (s : jsstring) : bool :=
  match s with [] => false | _ :: _ => true end.

(** The guard [text && text.trim()] on a field that may be absent
    ([undefined]): when it passes, the trimmed text the branch works with. *)
Definition presentText (text : option jsstring) : option jsstring :=
  match text with
  | Some s => if truthy s && truthy (trim s) then Some (trim s) else None
  | None => None
  end.

End JS.

Import JS.

(** ** The client's transcription buffer *)

(** The object literal [transcriptionBuffer]; both client variants declare
    it with the same five fields. *)
Record buffer := Buffer {
  arabic : jsstring;
  english : jsstring;
  lastUpdate : Z;
  pauseThreshold : Z;
  maxLength : Z
}.

Definition transcriptionBuffer : buffer :=
  {| arabic := []; english := []; lastUpdate := 0;
     pauseThreshold := 2000; maxLength := 300 |}.

Definition setArabic (s : jsstring) (b : buffer) : buffer :=
  {| arabic := s; english := english b; lastUpdate := lastUpdate b;
     pauseThreshold := pauseThreshold b; maxLength := maxLength b |}.

Definition setEnglish (s : jsstring) (b : buffer) : buffer :=
  {| arabic := arabic b; english := s; lastUpdate := lastUpdate b;
     pauseThreshold := pauseThreshold b; maxLength := maxLength b |}.

Definition setLastUpdate (t : Z) (b : buffer) : buffer :=
  {| arabic := arabic b; english := english b; lastUpdate := t;
     pauseThreshold := pauseThreshold b; maxLength := maxLength b |}.

(** The payload of a [transcription-update] event: an object whose [arabic]
    and [english] fields may each be absent. *)
Record update := Update {
  dataArabic : option jsstring;
  dataEnglish : option jsstring
}.

(** [clearTranscriptions]: both texts emptied, the clock reset. *)
Definition clearTranscriptions (b : buffer) : buffer :=
  setLastUpdate 0 (setEnglish [] (setArabic [] b)).

(** The text of the two boxes after [updateTranscriptionDisplay] (a box is
    rewritten only when its text differs from the trimmed content). *)
Definition arabicDisplay (b : buffer) : jsstring :=
  let arabicText := trim (arabic b) in
  if truthy arabicText then arabicText else lit "Waiting for speech...".

Definition englishDisplay (b : buffer) : jsstring :=
  let englishText := trim (english b) in
  if truthy englishText then englishText else lit "Waiting for translation...".

(** ** Compact policy *)

Module Compact.

(** [maxLength * 0.8] and the two thresholds [maxLength / 3] and
    [maxLength * 0.8 / 2] are number (double) expressions in the source.
    [maxLength] is only ever 300, for which the products are the integers
    240, 100 and 120 exactly; the embedding keeps integers, writes
    [maxLength * 0.8] as [maxLength * 8 / 10] and compares an index with a
    quotient by cross-multiplication. *)
Definition englishLimit (maxLength : Z) : Z := maxLength * 8 / 10.

Definition manageCompactTranscription
    (arabicText englishText : option jsstring) (timestamp : Z)
    (transcriptionBuffer : buffer) : buffer :=
  let timeDiff := timestamp - lastUpdate transcriptionBuffer in
  let isContinuation :=
    (timeDiff <? pauseThreshold transcriptionBuffer)
    && (0 <? len (trim (arabic transcriptionBuffer))) in
  let transcriptionBuffer :=
    match presentText arabicText with
    | Some text =>
        let content :=
          if isContinuation
          then trim (arabic transcriptionBuffer) ++ [space] ++ text
          else trim (arabic transcriptionBuffer) ++ paragraphBreak ++ text in
        let content :=
          if len content >? maxLength transcriptionBuffer then
            let truncatePoint :=
              len content - maxLength transcriptionBuffer + 100 in
            let lastBreak := lastIndexOf content paragraphBreak truncatePoint in
            let truncatePoint :=
              if 3 * lastBreak >? maxLength transcriptionBuffer
              then lastBreak else truncatePoint in
            ellipsis ++ substring content truncatePoint
          else content in
        setArabic content transcriptionBuffer
    | None => transcriptionBuffer
    end in
  let transcriptionBuffer :=
    match presentText englishText with
    | Some text =>
        let content :=
          if isContinuation
          then trim (english transcriptionBuffer) ++ [space] ++ text
          else trim (english transcriptionBuffer) ++ paragraphBreak ++ text in
        let limit := englishLimit (maxLength transcriptionBuffer) in
        let content :=
          if len content >? limit then
            let truncatePoint := len content - limit + 50 in
            let lastBreak := lastIndexOf content paragraphBreak truncatePoint in
            let truncatePoint :=
              if 2 * lastBreak >? limit then lastBreak else truncatePoint in
            ellipsis ++ substring content truncatePoint
          else content in
        setEnglish content transcriptionBuffer
    | None => transcriptionBuffer
    end in
  setLastUpdate timestamp transcriptionBuffer.

(** [updateTranscription(data)] reads the clock ([Date.now()], here [now])
    and hands both fields to the policy. *)
Definition updateTranscription (now : Z) (data : update) (b : buffer) : buffer :=
  manageCompactTranscription (dataArabic data) (dataEnglish data) now b.

(** A session: the buffer after a sequence of timestamped updates. *)
Definition run (events : list (Z * update)) (b : buffer) : buffer :=
  foldl (fun b e => updateTranscription (fst e) (snd e) b) b events.

End Compact.

(** ** Cumulative policy *)

Module Cumulative.

Definition maxPrayerLength : Z := 2000.

Definition manageCumulativeTranscription
    (arabicText englishText : option jsstring)
    (transcriptionBuffer : buffer) : buffer :=
  let transcriptionBuffer :=
    match presentText arabicText with
    | Some cleanArabic =>
        let content :=
          if truthy (trim (arabic transcriptionBuffer)) then
            let lastChar := slice (trim (arabic transcriptionBuffer)) (-1) in
            let needsSpace :=
              truthy lastChar
              && negb (bool_decide (lastChar ∈ [[space]; [newline]])) in
            arabic transcriptionBuffer
              ++ (if needsSpace then [space] else []) ++ cleanArabic
          else cleanArabic in
        let content :=
          if len content >? maxPrayerLength
          then ellipsis ++ slice content (-1500) else content in
        setArabic content transcriptionBuffer
    | None => transcriptionBuffer
    end in
  let transcriptionBuffer :=
    match presentText englishText with
    | Some cleanEnglish =>
        let content :=
          if truthy (trim (english transcriptionBuffer)) then
            let lastChar := slice (trim (english transcriptionBuffer)) (-1) in
            let needsSpace :=
              truthy lastChar
              && negb (bool_decide (lastChar ∈ [[space]; [newline]])) in
            english transcriptionBuffer
              ++ (if needsSpace then [space] else []) ++ cleanEnglish
          else cleanEnglish in
        let content :=
          if len content >? maxPrayerLength
          then ellipsis ++ slice content (-1500) else content in
        setEnglish content transcriptionBuffer
    | None => transcriptionBuffer
    end in
  transcriptionBuffer.

(** [updateTranscription(data)] of this variant never reads the clock; [now]
    is the arrival time of the event, kept to state that it has no effect. *)
Definition updateTranscription (now : Z) (data : update) (b : buffer) : buffer :=
  manageCumulativeTranscription (dataArabic data) (dataEnglish data) b.

Definition run (events : list (Z * update)) (b : buffer) : buffer :=
  foldl (fun b e => updateTranscription (fst e) (snd e) b) b events.

End Cumulative.

(** ** The client's recording controller *)

Module Recorder.

(** The argument of [updateButtonState]; any string other than
    ['recording'] and ['stopped'] (the code passes ['idle']) takes the
    [default] branch. *)
Inductive buttonState := Idle | Recording | Stopped.

Definition startLabel : jsstring := [0xD83C; 0xDFA4]%N ++ lit " Start Recording".
Definition stopLabel : jsstring := [0x23F9; 0xFE0F]%N ++ lit " Stop Recording".
Definition stoppedLabel : jsstring := [0x2705]%N ++ lit " Recording Stopped".

Inductive statusType := Info | Success | Error.

(** The state of a [MediaRecorder] object. *)
Inductive recorderState := Inactive | Capturing.

(** The script's variables, the record button, the status line, and the two
    browser objects the script drives: the recorder created last and the
    microphone tracks of its stream. *)
Record client := Client {
  mediaRecorder : bool;          (* [false] is [null] *)
  audioStream : bool;            (* [false] is [null] *)
  isRecording : bool;
  chunks : list (list Byte.byte);
  buttonText : jsstring;
  classRecording : bool;
  classStopped : bool;
  status : option (jsstring * statusType);
  recorder : recorderState;
  tracksLive : bool
}.

Definition showStatus (message : jsstring) (type : statusType) (c : client) : client :=
  {| mediaRecorder := mediaRecorder c; audioStream := audioStream c;
     isRecording := isRecording c; chunks := chunks c;
     buttonText := buttonText c; classRecording := classRecording c;
     classStopped := classStopped c; status := Some (message, type);
     recorder := recorder c; tracksLive := tracksLive c |}.

(** [stopRecording]: guarded by [mediaRecorder && isRecording]; the stream's
    tracks are stopped when [audioStream] is set. [isRecording] is cleared
    later, by the recorder's [stop] event. *)
Definition stopRecording (c : client) : client :=
  if mediaRecorder c && isRecording c then
    {| mediaRecorder := false;
       audioStream := false;
       isRecording := isRecording c; chunks := [];
       buttonText := buttonText c; classRecording := classRecording c;
       classStopped := classStopped c; status := status c;
       recorder := Inactive;
       tracksLive := if audioStream c then false else tracksLive c |}
  else c.

(** [updateButtonState(state)], up to the timer that the ['stopped'] branch
    arms to restore the start label two seconds later. *)
Definition updateButtonState (state : buttonState) (c : client) : client :=
  {| mediaRecorder := mediaRecorder c; audioStream := audioStream c;
     isRecording := isRecording c; chunks := chunks c;
     buttonText := match state with
                   | Recording => stopLabel
                   | Stopped => stoppedLabel
                   | Idle => startLabel
                   end;
     classRecording := match state with Recording => true | _ => false end;
     classStopped := match state with Stopped => true | _ => false end;
     status := status c; recorder := recorder c; tracksLive := tracksLive c |}.


End Recorder.

(** ** The server *)

Module Server.

Abbreviation fragment := (list Byte.byte).
Abbreviation socketId := nat.

(** Events the server emits on a socket. *)
Inductive emitted :=
| RecordingStarted
| RecordingStopped
| TranscriptionUpdate (arabic english : jsstring)
| ErrorEvent (message : jsstring).

(** What a run of [processAudioChunk] does, in order. *)
Inductive effect :=
| Recognize (audio : list Byte.byte)
| Translate (text : jsstring)
| Emit (e : emitted).

(** A call that either returns or throws an error with a message. *)
Inductive outcome (A : Type) :=
| Returns (a : A)
| Throws (message : jsstring).
Arguments Returns {A} a.
Arguments Throws {A} message.

Section Pipeline.

(** The two cloud services. A recognition response is the list of its
    results, each with the transcripts of its alternatives. *)
Variable recognize : list Byte.byte -> outcome (list (list jsstring)).
Variable translate : jsstring -> outcome jsstring.
(** The message of the [TypeError] raised by [alternatives[0].transcript]
    when a result has no alternative. *)
Variable typeErrorMessage : jsstring.

Definition errorEvent (message : jsstring) : effect :=
  Emit (ErrorEvent (lit "Error processing speech: " ++ message)).

(** [response.results.map(result => result.alternatives[0].transcript)]. *)
Fixpoint firstTranscripts (results : list (list jsstring))
  : outcome (list jsstring) :=
  match results with
  | [] => Returns []
  | alternatives :: rest =>
      match alternatives with
      | [] => Throws typeErrorMessage
      | transcript :: _ =>
          match firstTranscripts rest with
          | Returns ts => Returns (transcript :: ts)
          | Throws m => Throws m
          end
      end
  end.

(** The part of [processAudioChunk] after [speechClient.recognize] has
    settled with [response]. *)
Definition afterRecognize (response : outcome (list (list jsstring)))
  : list effect :=
  match response with
  | Throws m => [errorEvent m]
  | Returns results =>
      match firstTranscripts results with
      | Throws m => [errorEvent m]
      | Returns transcripts =>
          let transcription := join [newline] transcripts in
          if truthy transcription then
            Translate transcription ::
            match translate transcription with
            | Returns englishTranslation =>
                [Emit (TranscriptionUpdate transcription englishTranslation)]
            | Throws m => [errorEvent m]
            end
          else []
      end
  end.

Definition processAudioChunk (buffers : list fragment) : list effect :=
  let audioBuffer := concat buffers in
  Recognize audioBuffer :: afterRecognize (recognize audioBuffer).

(** The module-level [audioBuffers], the [audio-chunk] handlers suspended at
    [await processAudioChunk(audioBuffers, socket)] (each with its socket
    and the audio it sent), and what has been done so far on which socket. *)
Record server := Server {
  audioBuffers : list fragment;
  suspended : list (socketId * list Byte.byte);
  log : list (socketId * effect)
}.

Definition initial : server :=
  {| audioBuffers := []; suspended := []; log := [] |}.

(** One turn of the event loop: a socket event of some connection, or the
    resumption of a suspended [audio-chunk] handler once its pipeline call
    has settled. *)
Inductive event :=
| StartRecording (socket : socketId)
| AudioChunk (socket : socketId) (audioData : fragment)
| StopRecording (socket : socketId)
| Disconnect (socket : socketId)
| Resume (k : nat).

Definition step (s : server) (e : event) : server :=
  match e with
  | StartRecording socket =>
      {| audioBuffers := []; suspended := suspended s;
         log := log s ++ [(socket, Emit RecordingStarted)] |}
  | AudioChunk socket audioData =>
      let buffers := audioBuffers s ++ [audioData] in
      if 2 <=? Z.of_nat (length buffers) then
        {| audioBuffers := buffers;
           suspended := suspended s ++ [(socket, concat buffers)];
           log := log s ++ [(socket, Recognize (concat buffers))] |}
      else
        {| audioBuffers := buffers; suspended := suspended s; log := log s |}
  | StopRecording socket =>
      {| audioBuffers := []; suspended := suspended s;
         log := log s ++ [(socket, Emit RecordingStopped)] |}
  | Disconnect socket =>
      {| audioBuffers := []; suspended := suspended s; log := log s |}
  | Resume k =>
      match suspended s !! k with
      | Some (socket, audio) =>
          {| audioBuffers := [];
             suspended := delete k (suspended s);
             log := log s ++ map (pair socket) (afterRecognize (recognize audio)) |}
      | None => s
      end
  end.

Definition run (events : list event) (s : server) : server :=
  foldl step s events.

(** The batches handed to the pipeline so far, with the socket each was
    submitted for. *)
Definition submissions (s : server) : list (socketId * list Byte.byte) :=
  omap (fun entry => match entry with
                     | (socket, Recognize audio) => Some (socket, audio)
                     | _ => None
                     end) (log s).

End Pipeline.

End Server.

(** ** Strings of the example scenario *)

Definition bismillah : jsstring :=
  [0x628; 0x633; 0x645; 0x20; 0x627; 0x644; 0x644; 0x647]%N.
Definition arRahmanArRahim : jsstring :=
  [0x627; 0x644; 0x631; 0x62D; 0x645; 0x646; 0x20;
   0x627; 0x644; 0x631; 0x62D; 0x64A; 0x645]%N.
Definition alhamdulillah : jsstring :=
  [0x627; 0x644; 0x62D; 0x645; 0x62F; 0x20; 0x644; 0x644; 0x647]%N.

(** Inputs of the truncation examples: a first segment of 101 letters, then
    a segment of 400 letters after a long pause. *)
Definition letters (n : nat) (c : N) : jsstring := replicate n c.

Definition afterFirstSegment : buffer :=
  Compact.updateTranscription 0 (Update (Some (letters 101 0x61)) None)
    transcriptionBuffer.

Definition longSegment : update := Update (Some (letters 400 0x62)) None.

(** ** Derived forms used in the statements *)

(** The two accumulators, addressed uniformly. *)
Inductive language := Arabic | English.

Definition content (l : language) (b : buffer) : jsstring :=
  match l with Arabic => arabic b | English => english b end.

Definition field (l : language) (data : update) : option jsstring :=
  match l with Arabic => dataArabic data | English => dataEnglish data end.

(** A field that is absent, empty, or made of white space only. *)
Definition blank (text : option jsstring) : bool :=
  match text with
  | None => true
  | Some s => forallb isWhiteSpace s
  end.

Module CompactForms.

(** The flag computed once per call, from the clock and the Arabic text. *)
Definition isContinuation (timestamp : Z) (b : buffer) : bool :=
  (timestamp - lastUpdate b <? pauseThreshold b) && (0 <? len (trim (arabic b))).

(** The append step of either accumulator. *)
Definition joined (continuation : bool) (current text : jsstring) : jsstring :=
  trim current ++ (if continuation then [space] else paragraphBreak) ++ text.

(** The length management block: [limit] is the ceiling, [back] the
    constant added to the default cut point, [far] the test on the break. *)
Definition truncated (limit back : Z) (far : Z -> bool) (s : jsstring) : jsstring :=
  if len s >? limit then
    let truncatePoint := len s - limit + back in
    let lastBreak := lastIndexOf s paragraphBreak truncatePoint in
    ellipsis ++ substring s (if far lastBreak then lastBreak else truncatePoint)
  else s.

Definition ceiling (l : language) (maxLength : Z) : Z :=
  match l with Arabic => maxLength | English => Compact.englishLimit maxLength end.

Definition back (l : language) : Z :=
  match l with Arabic => 100 | English => 50 end.

Definition far (l : language) (maxLength : Z) (lastBreak : Z) : bool :=
  match l with
  | Arabic => 3 * lastBreak >? maxLength
  | English => 2 * lastBreak >? Compact.englishLimit maxLength
  end.

(** The least index a chosen break can have: above [maxLength / 3] for
    Arabic, above [maxLength * 0.8 / 2] for English. *)
Definition threshold (l : language) : Z :=
  match l with Arabic => 100 | English => 120 end.

Definition truncate (l : language) (maxLength : Z) (s : jsstring) : jsstring :=
  truncated (ceiling l maxLength) (back l) (far l maxLength) s.

End CompactForms.

Module CumulativeForms.

(** The append step of either accumulator. *)
Definition appended (current clean : jsstring) : jsstring :=
  if truthy (trim current) then
    let lastChar := slice (trim current) (-1) in
    let needsSpace :=
      truthy lastChar && negb (bool_decide (lastChar ∈ [[space]; [newline]])) in
    current ++ (if needsSpace then [space] else []) ++ clean
  else clean.

(** The length management block. *)
Definition capped (s : jsstring) : jsstring :=
  if len s >? Cumulative.maxPrayerLength then ellipsis ++ slice s (-1500) else s.

(** Texts that do not end in white space. *)
Definition tidy (s : jsstring) : Prop :=
  forall c, last s = Some c -> isWhiteSpace c = false.

End CumulativeForms.

Module ServerForms.

Import Server.

(** The socket a socket event belongs to. *)
Definition socketOf (e : event) : option socketId :=
  match e with
  | StartRecording c | AudioChunk c _ | StopRecording c | Disconnect c => Some c
  | Resume _ => None
  end.

Definition ownedBy (c : socketId) (e : event) : bool :=
  match socketOf e with Some c' => Nat.eqb c c' | None => false end.

(** The same event, as if it had come from connection [c]. *)
Definition relabel (c : socketId) (e : event) : event :=
  match e with
  | StartRecording _ => StartRecording c
  | AudioChunk _ audioData => AudioChunk c audioData
  | StopRecording _ => StopRecording c
  | Disconnect _ => Disconnect c
  | Resume k => Resume k
  end.

(** The transcript [processAudioChunk] tests, when recognition and the
    extraction of the first alternatives both succeed. *)
Definition transcription
    (recognize : list Byte.byte -> outcome (list (list jsstring)))
    (typeErrorMessage : jsstring) (audio : list Byte.byte) : option jsstring :=
  match recognize audio with
  | Returns results =>
      match firstTranscripts typeErrorMessage results with
      | Returns transcripts => Some (join [newline] transcripts)
      | Throws _ => None
      end
  | Throws _ => None
  end.

(** Independent sessions: over socket events (sequences in which no
    pipeline call returns, so that every event has an owner), what a
    connection finds pending is what its own events alone leave pending.
    A sequence from a single connection satisfies this, whatever the
    server. *)
Definition isolated
    (recognize : list Byte.byte -> outcome (list (list jsstring)))
    (translate : jsstring -> outcome jsstring)
    (typeErrorMessage : jsstring) : Prop :=
  forall (events : list event) (c : socketId),
    Forall (fun e => socketOf e <> None) events ->
    audioBuffers (run recognize translate typeErrorMessage events initial)
    = audioBuffers (run recognize translate typeErrorMessage
                      (List.filter (ownedBy c) events) initial).

(** Two states that differ at most in the sockets they mention. *)
Definition alike (s s' : server) : Prop :=
  audioBuffers s = audioBuffers s'
  /\ snd <$> suspended s = snd <$> suspended s'
  /\ snd <$> log s = snd <$> log s'.

(** Services for the examples: a recogniser that hears one result whose
    transcript is a single space, one that hears nothing, and a translator
    that answers with a fixed text. *)
Definition hearsSpace (audio : list Byte.byte) : outcome (list (list jsstring)) :=
  Returns [[[space]]].

Definition hearsNothing (audio : list Byte.byte) : outcome (list (list jsstring)) :=
  Returns [].

Definition fixedTranslation (text : jsstring) : outcome jsstring :=
  Returns (lit "peace").

Definition noAlternative : jsstring :=
  lit "Cannot read properties of undefined (reading 'transcript')".

End ServerForms.

(** ** The rest of the client scripts *)

(** What [updateTranscriptionDisplay] does to the two boxes, given the text
    they hold: a box is rewritten only when the trimmed content differs
    from its text. *)
Module Display.

Record boxes := Boxes {
  arabicTranscription : jsstring;
  englishTranscription : jsstring
}.

Definition waitingForSpeech : jsstring := lit "Waiting for speech...".
Definition waitingForTranslation : jsstring := lit "Waiting for translation...".

Definition updateTranscriptionDisplay (b : buffer) (d : boxes) : boxes :=
  let arabicText := trim (arabic b) in
  let englishText := trim (english b) in
  {| arabicTranscription :=
       if negb (bool_decide (arabicText = arabicTranscription d))
       then (if truthy arabicText then arabicText else waitingForSpeech)
       else arabicTranscription d;
     englishTranscription :=
       if negb (bool_decide (englishText = englishTranscription d))
       then (if truthy englishText then englishText else waitingForTranslation)
       else englishTranscription d |}.

Definition box (l : language) (d : boxes) : jsstring :=
  match l with Arabic => arabicTranscription d | English => englishTranscription d end.

Definition display (l : language) (b : buffer) : jsstring :=
  match l with Arabic => arabicDisplay b | English => englishDisplay b end.

End Display.

(** The first version of the client ([public/script.js]): no buffer, each
    box shows the last text received. *)
Module Legacy.

Record page := Page {
  currentArabicText : jsstring;
  currentEnglishText : jsstring;
  arabicTranscription : jsstring;
  englishTranscription : jsstring
}.

Definition updateTranscription (data : update) (p : page) : page :=
  let p :=
    match dataArabic data with
    | Some text =>
        if truthy text && negb (bool_decide (text = currentArabicText p)) then
          {| currentArabicText := text;
             currentEnglishText := currentEnglishText p;
             arabicTranscription := text;
             englishTranscription := englishTranscription p |}
        else p
    | None => p
    end in
  match dataEnglish data with
  | Some text =>
      if truthy text && negb (bool_decide (text = currentEnglishText p)) then
        {| currentArabicText := currentArabicText p;
           currentEnglishText := text;
           arabicTranscription := arabicTranscription p;
           englishTranscription := text |}
      else p
  | None => p
  end.

Definition clearTranscriptions (p : page) : page :=
  {| currentArabicText := []; currentEnglishText := [];
     arabicTranscription := Display.waitingForSpeech;
     englishTranscription := Display.waitingForTranslation |}.

Definition run (updates : list update) (p : page) : page :=
  foldl (fun p data => updateTranscription data p) p updates.

Definition current (l : language) (p : page) : jsstring :=
  match l with Arabic => currentArabicText p | English => currentEnglishText p end.

Definition box (l : language) (p : page) : jsstring :=
  match l with Arabic => arabicTranscription p | English => englishTranscription p end.

Definition placeholder (l : language) : jsstring :=
  match l with
  | Arabic => Display.waitingForSpeech
  | English => Display.waitingForTranslation
  end.

(** The last field of a language that is present and not the empty string. *)
Definition lastHeard (l : language) (updates : list update) : option jsstring :=
  last (omap (fun data => match field l data with
                          | Some (c :: s) => Some (c :: s)
                          | _ => None
                          end) updates).

End Legacy.

(** The recording controller of the buffered clients: the script's
    variables, the buffer, the boxes, and what the script hands to the
    socket, in program order. [sendAudioChunk] reads the blob and emits
    [audio-chunk] when the read ends; the call is recorded with the bytes
    it will emit. *)
Module Controller.

Import Recorder.

Inductive action :=
| EmitStartRecording
| EmitStopRecording
| SendAudioChunk (audioData : list Byte.byte).

Record page := Page {
  client : Recorder.client;
  transcript : buffer;
  boxes : Display.boxes;
  actions : list action
}.

Definition withClient (f : Recorder.client -> Recorder.client) (p : page) : page :=
  {| client := f (client p); transcript := transcript p;
     boxes := boxes p; actions := actions p |}.

Definition act (a : action) (p : page) : page :=
  {| client := client p; transcript := transcript p;
     boxes := boxes p; actions := actions p ++ [a] |}.

(** [clearTranscriptions] with its display update. *)
Definition clearAll (p : page) : page :=
  let b := clearTranscriptions (transcript p) in
  {| client := client p; transcript := b;
     boxes := Display.updateTranscriptionDisplay b (boxes p);
     actions := actions p |}.

(** [toggleRecording], with the part of [startRecording] that runs before
    [getUserMedia] is awaited. *)
Definition toggleRecording (p : page) : page :=
  if negb (isRecording (client p)) then
    withClient (showStatus (lit "Requesting microphone access...") Info)
      (act EmitStartRecording
         (withClient (updateButtonState Recording) (clearAll p)))
  else
    withClient stopRecording
      (act EmitStopRecording (withClient (updateButtonState Stopped) p)).

(** How the awaited part of [startRecording] ends: the microphone is
    refused ([getUserMedia] rejects), the recorder cannot be created on the
    stream obtained ([new MediaRecorder] throws), or recording starts. *)
Inductive startOutcome := Refused | RecorderFailed | Started.

Definition failedToAccess : jsstring :=
  lit "Failed to access microphone. Please allow microphone access and try again.".

(** The rest of [startRecording]. Its [catch] block reports every failure
    and returns, so the promise it returns is never rejected and the
    [catch] callback of [toggleRecording] never runs. *)
Definition startRecordingSettles (o : startOutcome) (p : page) : page :=
  let c := client p in
  match o with
  | Refused => withClient (showStatus failedToAccess Error) p
  | RecorderFailed =>
      withClient (fun _ =>
        showStatus failedToAccess Error
          {| mediaRecorder := mediaRecorder c; audioStream := true;
             isRecording := isRecording c; chunks := chunks c;
             buttonText := buttonText c; classRecording := classRecording c;
             classStopped := classStopped c; status := status c;
             recorder := recorder c; tracksLive := true |}) p
  | Started =>
      withClient (fun _ =>
        showStatus (lit "Recording... Speak Arabic into your microphone") Success
          {| mediaRecorder := true; audioStream := true;
             isRecording := isRecording c; chunks := chunks c;
             buttonText := buttonText c; classRecording := classRecording c;
             classStopped := classStopped c; status := status c;
             recorder := Capturing; tracksLive := true |}) p
  end.

(** [mediaRecorder.onstart]. *)
Definition onstart (p : page) : page :=
  let c := client p in
  withClient (fun _ =>
    showStatus (lit "Recording... Speak into your microphone") Success
      {| mediaRecorder := mediaRecorder c; audioStream := audioStream c;
         isRecording := true; chunks := chunks c;
         buttonText := buttonText c; classRecording := classRecording c;
         classStopped := classStopped c; status := status c;
         recorder := recorder c; tracksLive := tracksLive c |}) p.

(** [handleAudioChunk(event)] on the blob [event.data]. *)
Definition handleAudioChunk (data : list Byte.byte) (p : page) : page :=
  if 0 <? Z.of_nat (length data) then
    let c := client p in
    act (SendAudioChunk data)
      (withClient (fun _ =>
         {| mediaRecorder := mediaRecorder c; audioStream := audioStream c;
            isRecording := isRecording c; chunks := chunks c ++ [data];
            buttonText := buttonText c; classRecording := classRecording c;
            classStopped := classStopped c; status := status c;
            recorder := recorder c; tracksLive := tracksLive c |}) p)
  else p.

(** [mediaRecorder.onstop]: a blob made of the kept chunks is sent when
    there are any. *)
Definition onstop (p : page) : page :=
  let c := client p in
  let stopped :=
    withClient (fun _ =>
      showStatus (lit "Recording stopped") Info
        {| mediaRecorder := mediaRecorder c;
           audioStream := false;
           isRecording := false; chunks := [];
           buttonText := buttonText c; classRecording := classRecording c;
           classStopped := classStopped c; status := status c;
           recorder := Inactive;
           tracksLive := if audioStream c then false else tracksLive c |}) p in
  if 0 <? Z.of_nat (length (chunks c))
  then act (SendAudioChunk (concat (chunks c))) stopped
  else stopped.

(** [socket.on('recording-stopped', ...)]. *)
Definition onRecordingStopped (p : page) : page :=
  withClient (updateButtonState Idle) p.

(** The blobs of a list that [handleAudioChunk] keeps. *)
Definition kept (blobs : list (list Byte.byte)) : list (list Byte.byte) :=
  List.filter (fun data => 0 <? Z.of_nat (length data)) blobs.

(** The socket event an action becomes on connection [c]. *)
Definition toServer (c : Server.socketId) (a : action) : Server.event :=
  match a with
  | EmitStartRecording => Server.StartRecording c
  | EmitStopRecording => Server.StopRecording c
  | SendAudioChunk audioData => Server.AudioChunk c audioData
  end.

End Controller.

(** The two fullscreen modes of the cumulative client. *)
Module Fullscreen.

Inductive call :=
| RequestWakeLock
| ReleaseWakeLock
| RequestDocumentFullscreen
| ExitDocumentFullscreen
| SetTimer
| ClearTimer.

(** The script's fullscreen variables, the three overlays ([true] when the
    overlay has the class [hidden]), their text elements, the status line,
    and the browser calls made, in order. [requestWakeLock] and
    [releaseWakeLock] are recorded as calls. *)
Record view := View {
  isFullscreen : bool;
  fullscreenLanguage : language;
  fullscreenTimeout : bool;              (* [false] is [null] *)
  isIndividualFullscreen : bool;
  individualFullscreenType : option language;
  overlayHidden : bool;
  arabicOverlayHidden : bool;
  englishOverlayHidden : bool;
  fullscreenTranscription : jsstring;
  arabicFullscreenText : jsstring;
  englishFullscreenText : jsstring;
  statusLine : option (jsstring * Recorder.statusType);
  calls : list call
}.

Definition languageName (l : language) : jsstring :=
  match l with Arabic => lit "arabic" | English => lit "english" end.

Definition enterFullscreen (l : language) (d : Display.boxes) (v : view) : view :=
  {| isFullscreen := true;
     fullscreenLanguage := l;
     fullscreenTimeout := true;
     isIndividualFullscreen := isIndividualFullscreen v;
     individualFullscreenType := individualFullscreenType v;
     overlayHidden := false;
     arabicOverlayHidden := arabicOverlayHidden v;
     englishOverlayHidden := englishOverlayHidden v;
     fullscreenTranscription := Display.box l d;
     arabicFullscreenText := arabicFullscreenText v;
     englishFullscreenText := englishFullscreenText v;
     statusLine :=
       Some (lit "Bible prayer mode activated - Screen will stay awake",
             Recorder.Success);
     calls := calls v ++ [RequestWakeLock; RequestDocumentFullscreen; SetTimer] |}.

(** [exitFullscreen]; [documentFullscreen] tells whether
    [document.fullscreenElement] is set. *)
Definition exitFullscreen (documentFullscreen : bool) (v : view) : view :=
  {| isFullscreen := false;
     fullscreenLanguage := fullscreenLanguage v;
     fullscreenTimeout := false;
     isIndividualFullscreen := isIndividualFullscreen v;
     individualFullscreenType := individualFullscreenType v;
     overlayHidden := true;
     arabicOverlayHidden := arabicOverlayHidden v;
     englishOverlayHidden := englishOverlayHidden v;
     fullscreenTranscription := fullscreenTranscription v;
     arabicFullscreenText := arabicFullscreenText v;
     englishFullscreenText := englishFullscreenText v;
     statusLine := Some (lit "Exited prayer mode", Recorder.Info);
     calls := calls v ++ [ReleaseWakeLock]
              ++ (if documentFullscreen then [ExitDocumentFullscreen] else [])
              ++ (if fullscreenTimeout v then [ClearTimer] else []) |}.

Definition exitIndividualFullscreen (v : view) : view :=
  if negb (isIndividualFullscreen v) then v
  else
    {| isFullscreen := isFullscreen v;
       fullscreenLanguage := fullscreenLanguage v;
       fullscreenTimeout := fullscreenTimeout v;
       isIndividualFullscreen := false;
       individualFullscreenType := None;
       overlayHidden := overlayHidden v;
       arabicOverlayHidden :=
         match individualFullscreenType v with
         | Some Arabic => true
         | _ => arabicOverlayHidden v
         end;
       englishOverlayHidden :=
         match individualFullscreenType v with
         | Some Arabic => englishOverlayHidden v
         | _ => true
         end;
       fullscreenTranscription := fullscreenTranscription v;
       arabicFullscreenText := arabicFullscreenText v;
       englishFullscreenText := englishFullscreenText v;
       statusLine := Some (lit "Exited fullscreen", Recorder.Info);
       calls := calls v |}.

Definition enterIndividualFullscreen
    (type : language) (documentFullscreen : bool) (d : Display.boxes)
    (v : view) : view :=
  let v := if isFullscreen v then exitFullscreen documentFullscreen v else v in
  let v := if isIndividualFullscreen v then exitIndividualFullscreen v else v in
  {| isFullscreen := isFullscreen v;
     fullscreenLanguage := fullscreenLanguage v;
     fullscreenTimeout := fullscreenTimeout v;
     isIndividualFullscreen := true;
     individualFullscreenType := Some type;
     overlayHidden := overlayHidden v;
     arabicOverlayHidden :=
       match type with Arabic => false | English => arabicOverlayHidden v end;
     englishOverlayHidden :=
       match type with Arabic => englishOverlayHidden v | English => false end;
     fullscreenTranscription := fullscreenTranscription v;
     arabicFullscreenText :=
       match type with Arabic => Display.box Arabic d | English => arabicFullscreenText v end;
     englishFullscreenText :=
       match type with Arabic => englishFullscreenText v | English => Display.box English d end;
     statusLine :=
       Some (lit "Fullscreen " ++ languageName type ++ lit " activated",
             Recorder.Success);
     calls := calls v |}.

(** The user's moves between the modes. *)
Inductive move :=
| EnterFullscreen (l : language)
| ExitFullscreen (documentFullscreen : bool)
| EnterIndividualFullscreen (type : language) (documentFullscreen : bool)
| ExitIndividualFullscreen.

Definition apply (d : Display.boxes) (v : view) (m : move) : view :=
  match m with
  | EnterFullscreen l => enterFullscreen l d v
  | ExitFullscreen f => exitFullscreen f v
  | EnterIndividualFullscreen type f => enterIndividualFullscreen type f d v
  | ExitIndividualFullscreen => exitIndividualFullscreen v
  end.

(** The overlays agree with the flags: the prayer overlay is shown exactly
    in prayer mode, and an individual overlay is shown exactly when the
    individual mode is on, the one of the recorded type, alone. *)
Definition coherent (v : view) : Prop :=
  overlayHidden v = negb (isFullscreen v) /\
  match individualFullscreenType v with
  | None =>
      isIndividualFullscreen v = false
      /\ arabicOverlayHidden v = true /\ englishOverlayHidden v = true
  | Some Arabic =>
      isIndividualFullscreen v = true
      /\ arabicOverlayHidden v = false /\ englishOverlayHidden v = true
  | Some English =>
      isIndividualFullscreen v = true
      /\ arabicOverlayHidden v = true /\ englishOverlayHidden v = false
  end.

(** The page as loaded: nothing shown. *)
Definition closed : view :=
  {| isFullscreen := false; fullscreenLanguage := Arabic;
     fullscreenTimeout := false; isIndividualFullscreen := false;
     individualFullscreenType := None; overlayHidden := true;
     arabicOverlayHidden := true; englishOverlayHidden := true;
     fullscreenTranscription := []; arabicFullscreenText := [];
     englishFullscreenText := []; statusLine := None; calls := [] |}.

End Fullscreen.

(** ** Further derived forms *)

Module MoreForms.

(** The longest incoming text for which the compact accumulator stays
    within its ceiling plus the ellipsis. *)
Definition slack (l : language) : Z :=
  match l with Arabic => 96 | English => 116 end.

(** The non-blank texts a sequence of updates brings to an accumulator. *)
Definition texts (l : language) (events : list (Z * update)) : list jsstring :=
  omap (fun e => presentText (field l (snd e))) events.

(** The server events of one connection when every pipeline call returns
    before the next chunk arrives. *)
Fixpoint sequential (c : Server.socketId) (fragments : list Server.fragment)
  : list Server.event :=
  match fragments with
  | d1 :: d2 :: rest =>
      Server.AudioChunk c d1 :: Server.AudioChunk c d2 :: Server.Resume 0
      :: sequential c rest
  | [d] => [Server.AudioChunk c d]
  | [] => []
  end.

Fixpoint paired (c : Server.socketId) (fragments : list Server.fragment)
  : list (Server.socketId * list Byte.byte) :=
  match fragments with
  | d1 :: d2 :: rest => (c, d1 ++ d2) :: paired c rest
  | _ => []
  end.

Fixpoint unpaired (fragments : list Server.fragment) : list Server.fragment :=
  match fragments with
  | _ :: _ :: rest => unpaired rest
  | rest => rest
  end.

(** The events emitted by a run of the pipeline. *)
Definition emissions (effects : list Server.effect) : list Server.emitted :=
  omap (fun e => match e with Server.Emit x => Some x | _ => None end) effects.

Definition isError (e : Server.emitted) : bool :=
  match e with Server.ErrorEvent _ => true | _ => false end.

(** Counting acknowledgements in the log and requests in the events. *)
Definition acknowledges (ack : Server.emitted) (c : Server.socketId)
    (entry : Server.socketId * Server.effect) : bool :=
  match entry, ack with
  | (c', Server.Emit Server.RecordingStarted), Server.RecordingStarted => Nat.eqb c c'
  | (c', Server.Emit Server.RecordingStopped), Server.RecordingStopped => Nat.eqb c c'
  | _, _ => false
  end.

Definition requests (ack : Server.emitted) (c : Server.socketId)
    (e : Server.event) : bool :=
  match e, ack with
  | Server.StartRecording c', Server.RecordingStarted => Nat.eqb c c'
  | Server.StopRecording c', Server.RecordingStopped => Nat.eqb c c'
  | _, _ => false
  end.

End MoreForms.

(** * Properties *)

(** C5: the example scenario of the compact policy: from the empty buffer,
    the update at t=0 gives the text preceded by a paragraph break (shown
    trimmed), the update at t=1000 is joined with a space, and the update at
    t=5000 starts a new paragraph. *)
Theorem C5_compact_scenario :
  let b0 := transcriptionBuffer in
  let b1 := Compact.manageCompactTranscription (Some bismillah) None 0 b0 in
  let b2 := Compact.manageCompactTranscription (Some arRahmanArRahim) None 1000 b1 in
  let b3 := Compact.manageCompactTranscription (Some alhamdulillah) None 5000 b2 in
  pauseThreshold b0 = 2000 /\ maxLength b0 = 300 /\ arabic b0 = [] /\
  arabic b1 = paragraphBreak ++ bismillah /\
  arabicDisplay b1 = bismillah /\
  arabic b2 = bismillah ++ [space] ++ arRahmanArRahim /\
  arabic b3 = bismillah ++ [space] ++ arRahmanArRahim
              ++ paragraphBreak ++ alhamdulillah.
Proof. vm_compute. repeat split; reflexivity. Qed.

(** ** Facts about the string operations *)

Section StringFacts.

Implicit Types s pat : jsstring.

Lemma trimStart_blank s : trimStart s = [] <-> forallb isWhiteSpace s = true.
Proof.
  induction s as [|c s IH]; simpl; [tauto|].
  destruct (isWhiteSpace c); simpl; [exact IH|].
  split; discriminate.
Qed.

Lemma trimStart_head s c : head (trimStart s) = Some c -> isWhiteSpace c = false.
Proof.
  induction s as [|d s IH]; simpl; [discriminate|].
  destruct (isWhiteSpace d) eqn:E; [exact IH|].
  simpl. intros [= <-]. exact E.
Qed.

Lemma forallb_reverse (f : N -> bool) s : forallb f (reverse s) = forallb f s.
Proof.
  induction s as [|c s IH]; [reflexivity|].
  rewrite reverse_cons, forallb_app, IH. simpl.
  rewrite andb_true_r. apply andb_comm.
Qed.

Lemma trimEnd_blank s : trimEnd s = [] <-> forallb isWhiteSpace s = true.
Proof.
  unfold trimEnd. rewrite <- (forallb_reverse _ s), <- trimStart_blank.
  split; intros H.
  - apply (f_equal reverse) in H. by rewrite reverse_involutive in H.
  - by rewrite H.
Qed.

Lemma last_trimEnd s c : last (trimEnd s) = Some c -> isWhiteSpace c = false.
Proof.
  unfold trimEnd. rewrite last_reverse. apply trimStart_head.
Qed.

Lemma last_trim s c : last (trim s) = Some c -> isWhiteSpace c = false.
Proof. apply last_trimEnd. Qed.

Lemma trim_blank s : trim s = [] <-> forallb isWhiteSpace s = true.
Proof.
  unfold trim. rewrite trimEnd_blank, <- (trimStart_blank s).
  split; intros H; [|by rewrite H].
  destruct (trimStart s) as [|c r] eqn:E; [reflexivity|].
  assert (isWhiteSpace c = false) as Hc by (apply (trimStart_head s); by rewrite E).
  simpl in H. by rewrite Hc in H.
Qed.

Lemma presentText_blank text : presentText text = None <-> blank text = true.
Proof.
  destruct text as [s|]; [|simpl; tauto].
  unfold presentText, blank. rewrite <- trim_blank.
  destruct s as [|c s]; [simpl; tauto|].
  cbn [truthy andb].
  destruct (trim (c :: s)); simpl; split; congruence.
Qed.

Lemma presentText_Some text clean :
  presentText text = Some clean ->
  clean <> [] /\ exists s, text = Some s /\ clean = trim s.
Proof.
  destruct text as [s|]; simpl; [|discriminate].
  destruct (truthy s && truthy (trim s)) eqn:E; [|discriminate].
  intros [= <-]. apply andb_prop in E as [_ E].
  split; [|by exists s]. by destruct (trim s).
Qed.

Lemma len_app s1 s2 : len (s1 ++ s2) = len s1 + len s2.
Proof. unfold len. rewrite length_app. lia. Qed.

Lemma len_ellipsis : len ellipsis = 3.
Proof. reflexivity. Qed.

Lemma len_drop (n : nat) s : (n <= length s)%nat -> len (drop n s) = len s - Z.of_nat n.
Proof. unfold len. rewrite length_drop. lia. Qed.

Lemma searchDown_found s pat i :
  searchDown s pat i = -1 \/
  (0 <= searchDown s pat i <= Z.of_nat i /\
   startsWith pat (drop (Z.to_nat (searchDown s pat i)) s) = true).
Proof.
  induction i as [|i IH]; simpl.
  - destruct (startsWith pat (drop 0 s)) eqn:E; [right|left; reflexivity].
    split; [lia|exact E].
  - destruct (startsWith pat (drop (S i) s)) eqn:E.
    + right. split; [lia|]. by rewrite Nat2Z.id.
    + destruct IH as [IH|[IH1 IH2]]; [by left|right]. split; [lia|exact IH2].
Qed.

Lemma lastIndexOf_found s pat position :
  0 <= position ->
  lastIndexOf s pat position = -1 \/
  (0 <= lastIndexOf s pat position <= position /\
   startsWith pat (drop (Z.to_nat (lastIndexOf s pat position)) s) = true).
Proof.
  intros Hpos. unfold lastIndexOf.
  destruct (len s <? len pat) eqn:E; [by left|].
  apply Z.ltb_ge in E.
  destruct (searchDown_found s pat
              (Z.to_nat (Z.min (Z.max position 0) (len s - len pat))))
    as [H|[H1 H2]]; [by left|right].
  split; [lia|exact H2].
Qed.

Lemma substring_drop s start :
  0 <= start <= len s -> substring s start = drop (Z.to_nat start) s.
Proof.
  intros H. unfold substring. f_equal. lia.
Qed.

Lemma slice_tail s n :
  n < 0 -> slice s n = drop (length s - Z.to_nat (- n)) s.
Proof.
  intros Hn. unfold slice.
  destruct (n <? 0) eqn:E; [|apply Z.ltb_ge in E; lia].
  f_equal. unfold len. lia.
Qed.

Lemma slice_last s c : last s = Some c -> slice s (-1) = [c].
Proof.
  intros H. rewrite slice_tail by lia.
  apply last_Some in H as [r ->].
  rewrite length_app. simpl.
  replace (length r + 1 - Pos.to_nat 1)%nat with (length r + 0)%nat by lia.
  by rewrite drop_app_length'; [|lia].
Qed.

End StringFacts.

(** ** Compact policy *)

Section CompactFacts.

Import Compact CompactForms.

Implicit Types (b : buffer) (data : update) (t : Z) (lang : language).

(** Each accumulator is either left alone or set to the truncated join. *)
Lemma compact_content lang b data t text :
  presentText (field lang data) = Some text ->
  content lang (updateTranscription t data b)
  = truncate lang (maxLength b)
      (joined (isContinuation t b) (content lang b) text).
Proof.
  destruct data as [a e].
  unfold updateTranscription, manageCompactTranscription, isContinuation.
  destruct lang; cbn [field dataArabic dataEnglish content]; intros ->;
    destruct ((t - lastUpdate b <? pauseThreshold b)
              && (0 <? len (trim (arabic b)))).
  1,2: destruct (presentText e); reflexivity.
  1,2: destruct (presentText a); reflexivity.
Qed.

Lemma compact_untouched lang b data t :
  presentText (field lang data) = None ->
  content lang (updateTranscription t data b) = content lang b.
Proof.
  destruct data as [a e]. unfold updateTranscription, manageCompactTranscription.
  destruct lang; simpl; intros ->.
  - destruct (presentText e); reflexivity.
  - destruct (presentText a); reflexivity.
Qed.

Lemma compact_clock b data t :
  lastUpdate (updateTranscription t data b) = t
  /\ pauseThreshold (updateTranscription t data b) = pauseThreshold b
  /\ maxLength (updateTranscription t data b) = maxLength b.
Proof.
  destruct data as [a e]. unfold updateTranscription, manageCompactTranscription.
  simpl. destruct (presentText a), (presentText e); repeat split.
Qed.

(** The two settings never change during a session. *)
Lemma compact_settings events :
  pauseThreshold (run events transcriptionBuffer) = 2000
  /\ maxLength (run events transcriptionBuffer) = 300.
Proof.
  induction events as [|[now data] events IH] using rev_ind; [by split|].
  unfold run in *. rewrite foldl_app. cbn [foldl fst snd].
  destruct (compact_clock
              (foldl (fun b e => updateTranscription (fst e) (snd e) b)
                 transcriptionBuffer events) data now) as (_ & Hp & Hm).
  rewrite Hp, Hm. exact IH.
Qed.

(** Where the length management block cuts: at the default point, or at a
    paragraph break lying above the threshold and not after that point. *)
Lemma truncated_cut limit back far thr s :
  0 <= back <= limit ->
  (forall lastBreak, far lastBreak = true -> 0 <= thr < lastBreak) ->
  len s > limit ->
  exists cut : nat,
    (cut <= length s)%nat /\
    truncated limit back far s = ellipsis ++ drop cut s /\
    (Z.of_nat cut = len s - limit + back \/
     (thr < Z.of_nat cut <= len s - limit + back /\
      startsWith paragraphBreak (drop cut s) = true)).
Proof.
  intros Hback Hfar Hlen. unfold truncated.
  destruct (len s >? limit) eqn:E; [|rewrite Z.gtb_ltb in E; apply Z.ltb_ge in E; lia].
  set (tp := len s - limit + back).
  destruct (lastIndexOf_found s paragraphBreak tp) as [Hnone|[Hrange Hmatch]];
    [lia| |].
  - destruct (far (lastIndexOf s paragraphBreak tp)) eqn:F.
    + apply Hfar in F. lia.
    + exists (Z.to_nat tp). unfold len in *.
      split; [lia|]. split; [|left; lia].
      rewrite substring_drop; [reflexivity|unfold len; lia].
  - destruct (far (lastIndexOf s paragraphBreak tp)) eqn:F.
    + apply Hfar in F.
      exists (Z.to_nat (lastIndexOf s paragraphBreak tp)). unfold len in *.
      split; [lia|]. split; [|right; split; [lia|exact Hmatch]].
      rewrite substring_drop; [reflexivity|unfold len; lia].
    + exists (Z.to_nat tp). unfold len in *.
      split; [lia|]. split; [|left; lia].
      rewrite substring_drop; [reflexivity|unfold len; lia].
Qed.

Lemma far_threshold lang lastBreak :
  far lang 300 lastBreak = true -> 0 <= threshold lang < lastBreak.
Proof.
  destruct lang; unfold far, threshold; [|change (englishLimit 300) with 240];
    intros H; rewrite Z.gtb_ltb in H; apply Z.ltb_lt in H; lia.
Qed.

End CompactFacts.

Section CompactClaims.

Import Compact CompactForms.

(** C1 (as the code has it): when the joined content exceeds the ceiling
    (300 for Arabic, 240 for English) the new content is the ellipsis
    followed by a suffix of the joined content, and it is not empty. The cut
    is the default point [length - ceiling + back] (the result then has
    length [ceiling - back + 3], 203 or 193), or a paragraph break found
    above the threshold index (100 or 120) and not after the default point
    (the result then has length [3 + length - break]). The result is within
    [ceiling + 3] whenever the joined content is no longer than
    [ceiling + threshold + 1]. *)
Theorem C1_compact_truncation_cut
    (lang : language) (b : buffer) (data : update) (t : Z) (text : jsstring) :
  maxLength b = 300 ->
  presentText (field lang data) = Some text ->
  let pre := joined (isContinuation t b) (content lang b) text in
  let limit := ceiling lang 300 in
  let result := content lang (updateTranscription t data b) in
  len pre > limit ->
  result = truncate lang 300 pre /\
  exists cut : nat,
    result = ellipsis ++ drop cut pre /\
    drop cut pre `suffix_of` pre /\
    result <> [] /\
    len result = 3 + len pre - Z.of_nat cut /\
    (Z.of_nat cut = len pre - limit + back lang \/
     (threshold lang < Z.of_nat cut <= len pre - limit + back lang /\
      startsWith paragraphBreak (drop cut pre) = true)) /\
    (Z.of_nat cut = len pre - limit + back lang ->
     len result = limit - back lang + 3) /\
    (len pre <= limit + threshold lang + 1 -> len result <= limit + 3).
Proof.
  intros Hmax Htext pre limit result Hlen.
  assert (result = truncate lang 300 pre) as Hres.
  { subst result pre. rewrite (compact_content lang b data t text Htext).
    by rewrite Hmax. }
  split; [exact Hres|].
  destruct (truncated_cut limit (back lang) (far lang 300) (threshold lang) pre)
    as (cut & Hcut & Heq & Hwhere).
  { destruct lang; vm_compute; split; discriminate. }
  { apply far_threshold. }
  { exact Hlen. }
  change (truncated limit (back lang) (far lang 300) pre)
    with (truncate lang 300 pre) in Heq. rewrite <- Hres in Heq.
  assert (len result = 3 + len pre - Z.of_nat cut) as Hsize.
  { rewrite Heq, len_app, len_ellipsis, len_drop by exact Hcut. lia. }
  exists cut. split; [exact Heq|]. split; [apply suffix_drop|].
  split; [by rewrite Heq|]. split; [exact Hsize|]. split; [exact Hwhere|].
  split; [lia|].
  intros Hshort. destruct Hwhere as [Hd|[Hb _]]; [|lia].
  assert (0 <= back lang) by (destruct lang; vm_compute; discriminate). lia.
Qed.

Lemma C1_compact_truncation_cut_witness :
  let pre := joined (isContinuation 5000 afterFirstSegment)
               (content Arabic afterFirstSegment) (letters 400 0x62) in
  let result := content Arabic (updateTranscription 5000 longSegment afterFirstSegment) in
  result = truncate Arabic 300 pre /\
  exists cut : nat,
    result = ellipsis ++ drop cut pre /\
    drop cut pre `suffix_of` pre /\
    result <> [] /\
    len result = 3 + len pre - Z.of_nat cut /\
    (Z.of_nat cut = len pre - 300 + back Arabic \/
     (threshold Arabic < Z.of_nat cut <= len pre - 300 + back Arabic /\
      startsWith paragraphBreak (drop cut pre) = true)) /\
    (Z.of_nat cut = len pre - 300 + back Arabic ->
     len result = 300 - back Arabic + 3) /\
    (len pre <= 300 + threshold Arabic + 1 -> len result <= 300 + 3).
Proof.
  apply (C1_compact_truncation_cut Arabic afterFirstSegment longSegment 5000
           (letters 400 0x62)).
  - reflexivity.
  - vm_compute. reflexivity.
  - vm_compute. reflexivity.
Defined.

(** C1 fails as stated: after a first segment of 101 letters, a segment of
    400 letters arriving after a pause gives joined content of length 503;
    the break at index 101 is above the threshold, the cut is made there,
    and the new content has length 405, above 303. *)
Lemma C1_counterexample :
  let pre := joined (isContinuation 5000 afterFirstSegment)
               (arabic afterFirstSegment) (letters 400 0x62) in
  let result := arabic (updateTranscription 5000 longSegment afterFirstSegment) in
  maxLength afterFirstSegment = 300 /\
  len pre = 503 /\
  lastIndexOf pre paragraphBreak (len pre - 300 + 100) = 101 /\
  result = ellipsis ++ paragraphBreak ++ letters 400 0x62 /\
  len result = 405 /\
  ~ len result <= maxLength afterFirstSegment + 3.
Proof.
  vm_compute. repeat split; try reflexivity. intros H. apply H. reflexivity.
Qed.

(** C4 (as the code has it): when the gap is below the pause threshold and
    the Arabic accumulator, trimmed, is not empty, a non-empty incoming text
    is joined to its accumulator's trimmed content with one space, for the
    Arabic and for the English accumulator; the length management block
    then applies to that join, which stays as it is when within the
    ceiling. *)
Theorem C4_compact_continuation
    (lang : language) (b : buffer) (data : update) (t : Z) (text : jsstring) :
  t - lastUpdate b < pauseThreshold b ->
  trim (arabic b) <> [] ->
  presentText (field lang data) = Some text ->
  let pre := trim (content lang b) ++ [space] ++ text in
  content lang (updateTranscription t data b) = truncate lang (maxLength b) pre
  /\ (len pre <= ceiling lang (maxLength b) ->
      content lang (updateTranscription t data b) = pre).
Proof.
  intros Hgap Hne Htext pre.
  assert (isContinuation t b = true) as Hc.
  { unfold isContinuation. apply andb_true_intro. split.
    - by apply Z.ltb_lt.
    - apply Z.ltb_lt. unfold len. destruct (trim (arabic b)); [done|simpl; lia]. }
  rewrite (compact_content lang b data t text Htext), Hc.
  split; [reflexivity|].
  intros Hfit. unfold truncate, truncated, joined. fold pre.
  destruct (len pre >? ceiling lang (maxLength b)) eqn:E; [|reflexivity].
  rewrite Z.gtb_ltb in E. apply Z.ltb_lt in E. lia.
Qed.

Lemma C4_compact_continuation_witness :
  let b := updateTranscription 0 (Update (Some bismillah) None) transcriptionBuffer in
  let data := Update (Some arRahmanArRahim) None in
  let pre := trim (content Arabic b) ++ [space] ++ arRahmanArRahim in
  content Arabic (updateTranscription 1000 data b) = truncate Arabic (maxLength b) pre
  /\ (len pre <= ceiling Arabic (maxLength b) ->
      content Arabic (updateTranscription 1000 data b) = pre).
Proof.
  apply (C4_compact_continuation Arabic
           (updateTranscription 0 (Update (Some bismillah) None) transcriptionBuffer)
           (Update (Some arRahmanArRahim) None) 1000 arRahmanArRahim).
  - vm_compute. reflexivity.
  - vm_compute. discriminate.
  - vm_compute. reflexivity.
Defined.

(** C4 fails as stated: a gap below the threshold does not give a space
    when the Arabic accumulator is empty. From the empty buffer an update at
    t=0 is joined with a paragraph break; and after an update whose Arabic
    field is blank, an update 500 ms later gets a paragraph break in the
    English accumulator although that accumulator is not empty. *)
Lemma C4_counterexample :
  let b0 := transcriptionBuffer in
  let b1 := updateTranscription 0 (Update (Some bismillah) None) b0 in
  let c1 := updateTranscription 10000
              (Update (Some [space]) (Some (lit "In the name"))) b0 in
  let c2 := updateTranscription 10500
              (Update (Some bismillah) (Some (lit "of God"))) c1 in
  (0 - lastUpdate b0 < pauseThreshold b0 /\
   arabic b1 = paragraphBreak ++ bismillah /\
   arabic b1 <> trim (arabic b0) ++ [space] ++ bismillah) /\
  (10500 - lastUpdate c1 < pauseThreshold c1 /\
   trim (english c1) = lit "In the name" /\
   english c2 = lit "In the name" ++ paragraphBreak ++ lit "of God" /\
   english c2 <> trim (english c1) ++ [space] ++ lit "of God").
Proof.
  vm_compute. repeat split; try reflexivity; discriminate.
Qed.

(** C9: an update whose two fields are absent, empty or blank leaves both
    accumulators as they are and sets [lastUpdate] to its timestamp; so a
    text arriving 3000 ms after the previous text, which alone would start a
    new paragraph, is joined with a space when a blank update came 500 ms
    before it. *)
Theorem C9_blank_update_resets_clock
    (b : buffer) (arabicText englishText : option jsstring) (t : Z) :
  blank arabicText = true ->
  blank englishText = true ->
  manageCompactTranscription arabicText englishText t b = setLastUpdate t b
  /\ arabic (manageCompactTranscription arabicText englishText t b) = arabic b
  /\ english (manageCompactTranscription arabicText englishText t b) = english b
  /\ lastUpdate (manageCompactTranscription arabicText englishText t b) = t
  /\ (let b1 := manageCompactTranscription (Some bismillah) None 0 transcriptionBuffer in
      let direct := manageCompactTranscription (Some alhamdulillah) None 3000 b1 in
      let viaBlank :=
        manageCompactTranscription (Some alhamdulillah) None 3000
          (manageCompactTranscription arabicText englishText 2500 b1) in
      arabic direct = bismillah ++ paragraphBreak ++ alhamdulillah /\
      arabic viaBlank = bismillah ++ [space] ++ alhamdulillah).
Proof.
  intros Ha He.
  apply presentText_blank in Ha, He.
  assert (forall t' b', manageCompactTranscription arabicText englishText t' b'
                        = setLastUpdate t' b') as Hframe.
  { intros t' b'. unfold manageCompactTranscription. by rewrite Ha, He. }
  rewrite !Hframe. do 4 (split; [reflexivity|]).
  intros b1 direct viaBlank. subst direct viaBlank. rewrite Hframe.
  vm_compute. split; reflexivity.
Qed.

Lemma C9_blank_update_resets_clock_witness :
  let b := manageCompactTranscription (Some bismillah) None 0 transcriptionBuffer in
  manageCompactTranscription (Some [space; newline]) None 2500 b = setLastUpdate 2500 b.
Proof.
  apply (C9_blank_update_resets_clock
           (manageCompactTranscription (Some bismillah) None 0 transcriptionBuffer)
           (Some [space; newline]) None 2500); reflexivity.
Defined.

End CompactClaims.

(** ** Cumulative policy *)

Section CumulativeFacts.

Import Cumulative CumulativeForms.

Implicit Types (b : buffer) (data : update) (s : jsstring) (lang : language).

Lemma cumulative_content lang b data now clean :
  presentText (field lang data) = Some clean ->
  content lang (updateTranscription now data b)
  = capped (appended (content lang b) clean).
Proof.
  destruct data as [a e].
  unfold updateTranscription, manageCumulativeTranscription.
  destruct lang; cbn [field dataArabic dataEnglish content]; intros ->.
  - destruct (presentText e); reflexivity.
  - destruct (presentText a); reflexivity.
Qed.

Lemma cumulative_untouched lang b data now :
  presentText (field lang data) = None ->
  content lang (updateTranscription now data b) = content lang b.
Proof.
  destruct data as [a e].
  unfold updateTranscription, manageCumulativeTranscription.
  destruct lang; cbn [field dataArabic dataEnglish content]; intros ->.
  - destruct (presentText e); reflexivity.
  - destruct (presentText a); reflexivity.
Qed.

(** The last character of a trimmed text is never a space or a newline, so
    [needsSpace] holds whenever the current text is not blank. *)
Lemma appended_space s clean :
  trim s <> [] -> appended s clean = s ++ [space] ++ clean.
Proof.
  intros Hne. unfold appended.
  destruct (last (trim s)) as [c|] eqn:Hlast;
    [|apply last_None in Hlast; contradiction].
  assert (isWhiteSpace c = false) as Hc by (by apply (last_trim s)).
  rewrite (slice_last _ _ Hlast).
  destruct (trim s); [contradiction|]. cbn [truthy andb].
  rewrite bool_decide_eq_false_2; [reflexivity|].
  intros Hin. apply list_elem_of_In in Hin.
  destruct Hin as [H|[H|[]]]; injection H as <-; discriminate Hc.
Qed.

Lemma appended_first s clean : trim s = [] -> appended s clean = clean.
Proof. intros H. unfold appended. by rewrite H. Qed.

Lemma tidy_trim_nonempty s : tidy s -> s <> [] -> trim s <> [].
Proof.
  intros Ht Hne Hblank. apply trim_blank in Hblank.
  destruct (last s) as [c|] eqn:Hlast; [|by apply last_None in Hlast].
  specialize (Ht c Hlast).
  apply last_Some in Hlast as [r ->].
  rewrite forallb_app in Hblank. simpl in Hblank.
  rewrite Ht, andb_false_r in Hblank. discriminate.
Qed.

Lemma tidy_app s1 s2 : s2 <> [] -> tidy s2 -> tidy (s1 ++ s2).
Proof.
  intros Hne Ht c Hc. apply Ht.
  apply last_app_Some in Hc as [Hc|[Hc _]]; [exact Hc|].
  by apply last_None in Hc.
Qed.

Lemma tidy_drop (n : nat) s : (n < length s)%nat -> tidy s -> tidy (drop n s).
Proof.
  intros Hn Ht c Hc. apply Ht.
  rewrite <- (take_drop n s). apply last_app_Some. by left.
Qed.

Lemma len_slice_tail s n :
  0 < n <= len s -> len (slice s (- n)) = n.
Proof.
  intros H. rewrite slice_tail by lia. unfold len in *.
  rewrite length_drop. lia.
Qed.

Lemma tidy_capped s : tidy s -> tidy (capped s).
Proof.
  intros Ht. unfold capped, maxPrayerLength.
  destruct (len s >? 2000) eqn:E; [|exact Ht].
  rewrite Z.gtb_ltb in E. apply Z.ltb_lt in E.
  assert (len (slice s (-1500)) = 1500) as Hl
    by (apply (len_slice_tail s 1500); lia).
  apply tidy_app.
  - intros H. rewrite H in Hl. discriminate.
  - rewrite slice_tail by lia. apply tidy_drop; [unfold len in E; lia|exact Ht].
Qed.

Lemma tidy_step lang b data now :
  tidy (content lang b) -> tidy (content lang (updateTranscription now data b)).
Proof.
  intros Ht.
  destruct (presentText (field lang data)) as [clean|] eqn:E.
  - rewrite (cumulative_content lang b data now clean E).
    apply presentText_Some in E as (Hne & s & _ & ->).
    apply tidy_capped.
    destruct (trim (content lang b)) as [|c r] eqn:F.
    + rewrite appended_first by exact F. intros c. apply last_trim.
    + rewrite appended_space by (rewrite F; discriminate).
      rewrite app_assoc. apply tidy_app; [exact Hne|]. intros c'. apply last_trim.
  - by rewrite cumulative_untouched.
Qed.

(** Every accumulator reached from the empty buffer is empty or ends in a
    character that is not white space. *)
Lemma tidy_run lang events :
  tidy (content lang (run events transcriptionBuffer)).
Proof.
  induction events as [|[now data] events IH] using rev_ind.
  - destruct lang; intros c; discriminate.
  - unfold run. rewrite foldl_app. simpl. apply tidy_step, IH.
Qed.

End CumulativeFacts.

Section CumulativeClaims.

Import Cumulative CumulativeForms.

(** C6: in the cumulative policy, content that exceeds 2000 characters after
    an append is replaced by the ellipsis followed by its last 1500
    characters, a suffix of the appended content; in particular a
    200-character text appended to a 1900-character accumulator reached from
    the empty buffer gives 1900 + 1 + 200 = 2101 characters and then a
    content of length exactly 1503. *)
Theorem C6_cumulative_cap
    (lang : language) (events : list (Z * update)) (now : Z) (data : update)
    (text : jsstring) :
  let b := run events transcriptionBuffer in
  presentText (field lang data) = Some text ->
  let pre := appended (content lang b) text in
  let result := content lang (updateTranscription now data b) in
  (len pre > 2000 ->
   result = ellipsis ++ slice pre (-1500) /\
   len (slice pre (-1500)) = 1500 /\
   slice pre (-1500) `suffix_of` pre /\
   len result = 1503) /\
  (len pre <= 2000 -> result = pre) /\
  (len (content lang b) = 1900 -> len text = 200 ->
   pre = content lang b ++ [space] ++ text /\
   result = ellipsis ++ slice pre (-1500) /\
   slice pre (-1500) `suffix_of` pre /\
   len result = 1503).
Proof.
  intros b Htext pre result.
  assert (result = capped pre) as Hres
    by apply (cumulative_content lang b data now text Htext).
  assert (len pre > 2000 ->
          result = ellipsis ++ slice pre (-1500) /\
          len (slice pre (-1500)) = 1500 /\
          slice pre (-1500) `suffix_of` pre /\
          len result = 1503) as Hover.
  { intros Hlen.
    assert (result = ellipsis ++ slice pre (-1500)) as Heq.
    { rewrite Hres. unfold capped, maxPrayerLength.
      destruct (len pre >? 2000) eqn:E; [reflexivity|].
      rewrite Z.gtb_ltb in E. apply Z.ltb_ge in E. lia. }
    assert (len (slice pre (-1500)) = 1500) as Hl
      by (apply (len_slice_tail pre 1500); lia).
    split; [exact Heq|]. split; [exact Hl|]. split.
    - rewrite slice_tail by lia. apply suffix_drop.
    - rewrite Heq, len_app, len_ellipsis, Hl. reflexivity. }
  split; [exact Hover|]. split.
  - intros Hfit. rewrite Hres. unfold capped, maxPrayerLength.
    destruct (len pre >? 2000) eqn:E; [|reflexivity].
    rewrite Z.gtb_ltb in E. apply Z.ltb_lt in E. lia.
  - intros Hb Ht.
    assert (pre = content lang b ++ [space] ++ text) as Hpre.
    { apply appended_space, tidy_trim_nonempty; [apply tidy_run|].
      intros H. rewrite H in Hb. discriminate. }
    split; [exact Hpre|].
    assert (len pre > 2000) as Hlen.
    { rewrite Hpre, !len_app, Hb, Ht. reflexivity. }
    destruct (Hover Hlen) as (H1 & _ & H3 & H4). auto.
Qed.

Lemma C6_cumulative_cap_witness :
  let first := Update (Some (letters 1900 0x61)) None in
  let second := Update (Some (letters 200 0x62)) None in
  let b := run [(0, first)] transcriptionBuffer in
  len (arabic b) = 1900 /\
  len (arabic (updateTranscription 60000 second b)) = 1503.
Proof.
  split; [vm_compute; reflexivity|].
  destruct (C6_cumulative_cap Arabic [(0, Update (Some (letters 1900 0x61)) None)]
              60000 (Update (Some (letters 200 0x62)) None) (letters 200 0x62))
    as (_ & _ & Hexample).
  - vm_compute. reflexivity.
  - apply Hexample; vm_compute; reflexivity.
Defined.

(** C7: in the cumulative policy, after any sequence of updates arriving at
    any times, a non-empty update is joined to the existing content with
    nothing (the content was empty) or with one space, never with a
    paragraph break; a space is inserted only when the existing content ends
    in a character that is neither a space nor a newline. The length cap
    then applies to the join. *)
Theorem C7_cumulative_join
    (lang : language) (events : list (Z * update)) (now : Z) (data : update)
    (text : jsstring) :
  let b := run events transcriptionBuffer in
  presentText (field lang data) = Some text ->
  exists sep : jsstring,
    (sep = [] \/ sep = [space]) /\
    sep <> paragraphBreak /\
    (sep = [space] ->
     exists c, last (content lang b) = Some c /\ c <> space /\ c <> newline) /\
    content lang (updateTranscription now data b)
    = capped (content lang b ++ sep ++ text).
Proof.
  intros b Htext.
  rewrite (cumulative_content lang b data now text Htext).
  pose proof (tidy_run lang events) as Ht. fold b in Ht.
  destruct (content lang b) as [|c0 r] eqn:Hc.
  - exists []. split; [by left|]. split; [discriminate|]. split; [discriminate|].
    reflexivity.
  - exists [space]. split; [by right|]. split; [discriminate|].
    rewrite <- Hc in *. split.
    + intros _. destruct (last (content lang b)) as [c|] eqn:Hlast.
      * exists c. split; [reflexivity|].
        specialize (Ht c Hlast). split; intros ->; discriminate Ht.
      * apply last_None in Hlast. rewrite Hlast in Hc. discriminate.
    + f_equal. apply appended_space, tidy_trim_nonempty; [exact Ht|].
      rewrite Hc. discriminate.
Qed.

Lemma C7_cumulative_join_witness :
  let b := run [(0, Update (Some bismillah) None)] transcriptionBuffer in
  exists sep : jsstring,
    (sep = [] \/ sep = [space]) /\
    sep <> paragraphBreak /\
    (sep = [space] ->
     exists c, last (content Arabic b) = Some c /\ c <> space /\ c <> newline) /\
    content Arabic (updateTranscription 5000 (Update (Some alhamdulillah) None) b)
    = capped (content Arabic b ++ sep ++ alhamdulillah).
Proof.
  apply (C7_cumulative_join Arabic [(0, Update (Some bismillah) None)] 5000
           (Update (Some alhamdulillah) None) alhamdulillah).
  vm_compute. reflexivity.
Defined.

End CumulativeClaims.

(** ** The client's error handler *)

Section RecorderClaims.

Import Recorder.




End RecorderClaims.

(** ** The server *)

Section ServerFacts.

Import Server ServerForms.

Variable recognize : list Byte.byte -> outcome (list (list jsstring)).
Variable translate : jsstring -> outcome jsstring.
Variable typeErrorMessage : jsstring.

Local Abbreviation step := (Server.step recognize translate typeErrorMessage).
Local Abbreviation run := (Server.run recognize translate typeErrorMessage).

Lemma run_snoc events e s : run (events ++ [e]) s = step (run events s) e.
Proof. unfold Server.run. by rewrite foldl_app. Qed.

Lemma snd_pairs (c : socketId) (effects : list effect) :
  snd <$> map (pair c) effects = effects.
Proof. induction effects as [|x l IH]; [reflexivity|]. cbn. f_equal. exact IH. Qed.

Lemma step_alike (c : socketId) (s s' : server) (e : event) :
  alike s s' -> alike (step s e) (step s' (relabel c e)).
Proof.
  intros (Hb & Hs & Hl). unfold alike.
  destruct e as [c'|c' d|c'|c'|k]; simpl.
  - by rewrite !fmap_app, Hl.
  - rewrite Hb. destruct (2 <=? Z.of_nat (length (audioBuffers s' ++ [d]))); simpl.
    + by rewrite !fmap_app, Hs, Hl.
    + done.
  - by rewrite !fmap_app, Hl.
  - done.
  - pose proof (f_equal (fun l => l !! k) Hs) as Hk. simpl in Hk.
    rewrite !list_lookup_fmap in Hk.
    destruct (suspended s !! k) as [[c1 a1]|], (suspended s' !! k) as [[c2 a2]|];
      simpl in Hk; try discriminate.
    + injection Hk as <-. simpl.
      by rewrite !list_fmap_delete, !fmap_app, !snd_pairs, Hs, Hl.
    + done.
Qed.

Lemma run_alike (c : socketId) (events : list event) (s s' : server) :
  alike s s' -> alike (run events s) (run (map (relabel c) events) s').
Proof.
  revert s s'. induction events as [|e events IH]; intros s s' H; [exact H|].
  simpl. apply IH, step_alike, H.
Qed.

Lemma submissions_alike (s s' : server) :
  snd <$> log s = snd <$> log s' ->
  snd <$> submissions s = snd <$> submissions s'.
Proof.
  unfold submissions. generalize (log s) (log s').
  induction l as [|[c e] l IH]; intros [|[c' e'] l']; simpl; try discriminate.
  - done.
  - intros [= -> H]. specialize (IH _ H).
    destruct e'; simpl; [f_equal|..]; exact IH.
Qed.

(** With no handler suspended, at most one fragment is pending. *)
Lemma quiet_pending events :
  suspended (run events initial) = [] ->
  (length (audioBuffers (run events initial)) <= 1)%nat.
Proof.
  induction events as [|e events IH] using rev_ind; [simpl; lia|].
  rewrite run_snoc. set (s := run events initial) in *.
  destruct e as [c|c d|c|c|k]; simpl; try lia.
  - destruct (2 <=? Z.of_nat (length (audioBuffers s ++ [d]))) eqn:E; simpl.
    + intros H. by apply app_nil in H as [_ H].
    + intros _. apply Z.leb_gt in E. lia.
  - destruct (suspended s !! k) as [[c a]|] eqn:E; simpl; [lia|exact IH].
Qed.

End ServerFacts.

Section ServerClaims.

Import Server ServerForms.

Variable recognize : list Byte.byte -> outcome (list (list jsstring)).
Variable translate : jsstring -> outcome jsstring.
Variable typeErrorMessage : jsstring.

Local Abbreviation step := (Server.step recognize translate typeErrorMessage).
Local Abbreviation run := (Server.run recognize translate typeErrorMessage).

(** X15: while no handler is suspended the batcher does what its comments
    say: a chunk is submitted exactly when it is the second pending
    fragment, and the batch holds those two fragments. *)
Lemma quiet_batch_of_two events (c : socketId) (d : fragment) :
  let s := run events initial in
  suspended s = [] ->
  (submissions (step s (AudioChunk c d)) <> submissions s
   <-> length (audioBuffers s) = 1%nat) /\
  (forall f, audioBuffers s = [f] ->
   submissions (step s (AudioChunk c d)) = submissions s ++ [(c, f ++ d)]).
Proof.
  intros s Hq. pose proof (quiet_pending recognize translate typeErrorMessage events Hq) as Hle.
  fold s in Hle. unfold submissions. simpl.
  destruct (audioBuffers s) as [|f [|g r]] eqn:E; simpl in *; [| |lia].
  - split; [split; [congruence|discriminate]|discriminate].
  - rewrite omap_app. simpl. rewrite app_nil_r. split.
    + split; [reflexivity|]. intros _ H.
      apply (f_equal length) in H. rewrite length_app in H. simpl in H. lia.
    + by intros ? [= <-].
Qed.

(** C2 (what the code does when chunks overlap a pipeline call): the
    pending list is not cleared when a batch is submitted but when the
    awaited call returns. A third chunk arriving before that is submitted
    together with the two fragments already sent, as a batch of three; the
    return of the first call then empties the list, and a fourth chunk
    arriving before the return of the second call is dropped without ever
    being submitted. A stop before the threshold discards the pending
    fragment without submission. *)
Theorem C2_overlapping_chunks (c : socketId) (f1 f2 f3 f4 : fragment) :
  let s2 := run [AudioChunk c f1; AudioChunk c f2] initial in
  let s3 := step s2 (AudioChunk c f3) in
  let s6 := run [Resume 0; AudioChunk c f4; Resume 0] s3 in
  (submissions s2 = [(c, f1 ++ f2)] /\ audioBuffers s2 = [f1; f2]) /\
  (submissions s3 = [(c, f1 ++ f2); (c, f1 ++ f2 ++ f3)]
   /\ audioBuffers s3 = [f1; f2; f3]) /\
  (submissions s6 = submissions s3 /\ audioBuffers s6 = []
   /\ suspended s6 = []) /\
  (let stopped := run [AudioChunk c f1; StopRecording c] initial in
   submissions stopped = [] /\ audioBuffers stopped = []).
Proof.
  unfold submissions. simpl. rewrite !app_nil_r.
  repeat split; rewrite ?omap_app; simpl; rewrite ?app_nil_r; try reflexivity.
  assert (forall response : outcome (list (list jsstring)),
    omap (fun entry : socketId * effect =>
            match entry with
            | (socket, Recognize audio) => Some (socket, audio)
            | _ => None
            end) (map (pair c) (afterRecognize translate typeErrorMessage response))
    = []) as Hnone.
  { intros r. unfold afterRecognize, errorEvent.
    destruct r as [results|m]; [|reflexivity].
    destruct (firstTranscripts typeErrorMessage results) as [ts|m]; [|reflexivity].
    destruct (truthy (join [newline] ts)); [|reflexivity].
    destruct (translate (join [newline] ts)); reflexivity. }
  rewrite !Hnone. reflexivity.
Qed.

(** C3 (as the code has it): the transcript is tested for being the empty
    string, without trimming. When it is empty nothing follows the
    recognition call: no translation call and no event. A translation call
    is made exactly when recognition succeeds with a transcript that is not
    the empty string, and a [transcription-update] is emitted exactly when,
    in addition, the translation succeeds. *)
Theorem C3_pipeline_empty_transcript (buffers : list fragment) :
  let audio := concat buffers in
  let effects := processAudioChunk recognize translate typeErrorMessage buffers in
  (transcription recognize typeErrorMessage audio = Some [] ->
   effects = [Recognize audio]) /\
  (forall text,
     Translate text ∈ effects <->
     transcription recognize typeErrorMessage audio = Some text /\ text <> []) /\
  (forall ar en,
     Emit (TranscriptionUpdate ar en) ∈ effects <->
     transcription recognize typeErrorMessage audio = Some ar /\ ar <> []
     /\ translate ar = Returns en).
Proof.
  intros audio effects. subst effects.
  unfold processAudioChunk, transcription, afterRecognize, errorEvent.
  fold audio.
  destruct (recognize audio) as [results|m].
  2: { split; [discriminate|].
       split; intros; rewrite list_elem_of_In; simpl; intuition congruence. }
  destruct (firstTranscripts typeErrorMessage results) as [ts|m].
  2: { split; [discriminate|].
       split; intros; rewrite list_elem_of_In; simpl; intuition congruence. }
  destruct (join [newline] ts) as [|u r] eqn:E; cbn [truthy].
  { split; [reflexivity|].
    split; intros; rewrite list_elem_of_In; simpl; intuition congruence. }
  split; [discriminate|].
  destruct (translate (u :: r)) as [en'|m] eqn:T;
    split; intros; rewrite list_elem_of_In; simpl; intuition congruence.
Qed.

End ServerClaims.

Section ServerExamples.

Import Server ServerForms.

Lemma C3_pipeline_empty_transcript_witness :
  processAudioChunk (fun _ => Returns [[[]]]) fixedTranslation noAlternative
    [[Byte.x01]; [Byte.x02]]
  = [Recognize [Byte.x01; Byte.x02]].
Proof.
  apply (C3_pipeline_empty_transcript (fun _ => Returns [[[]]]) fixedTranslation
           noAlternative [[Byte.x01]; [Byte.x02]]).
  reflexivity.
Defined.

(** C3 fails as stated: a transcript made of one space is empty after
    trimming, yet it is sent to translation and a [transcription-update] is
    emitted. *)
Lemma C3_counterexample :
  let buffers := [[Byte.x01]; [Byte.x02]] in
  let effects := processAudioChunk hearsSpace fixedTranslation noAlternative buffers in
  transcription hearsSpace noAlternative (concat buffers) = Some [space] /\
  trim [space] = [] /\
  effects = [Recognize [Byte.x01; Byte.x02];
             Translate [space];
             Emit (TranscriptionUpdate [space] (lit "peace"))].
Proof. vm_compute. repeat split; reflexivity. Qed.

(** C8 (as the code has it): there is one pending list for the whole
    process. What is pending and what is submitted after any sequence of
    events is what it would be had every event come from one connection;
    a start, stop or disconnect of any connection empties the list, and a
    chunk of any connection is added to it. A chunk that brings the count
    to the threshold submits everything pending, whoever sent it, as one
    batch on the socket of the connection that sent this chunk; a chunk
    below the threshold submits nothing. *)
Theorem C8_single_shared_list
    (recognize : list Byte.byte -> outcome (list (list jsstring)))
    (translate : jsstring -> outcome jsstring) (typeErrorMessage : jsstring)
    (events : list event) (c : socketId) :
  let s := run recognize translate typeErrorMessage events initial in
  let s' := run recognize translate typeErrorMessage
              (map (relabel c) events) initial in
  audioBuffers s = audioBuffers s' /\
  snd <$> submissions s = snd <$> submissions s' /\
  snd <$> log s = snd <$> log s' /\
  (forall c' : socketId,
     audioBuffers (step recognize translate typeErrorMessage s (StartRecording c')) = []
     /\ audioBuffers (step recognize translate typeErrorMessage s (StopRecording c')) = []
     /\ audioBuffers (step recognize translate typeErrorMessage s (Disconnect c')) = []
     /\ forall d, audioBuffers (step recognize translate typeErrorMessage s (AudioChunk c' d))
                  = audioBuffers s ++ [d]) /\
  (forall (c' : socketId) (d : fragment),
     submissions (step recognize translate typeErrorMessage s (AudioChunk c' d))
     = if 2 <=? Z.of_nat (length (audioBuffers s) + 1)
       then submissions s ++ [(c', concat (audioBuffers s ++ [d]))]
       else submissions s).
Proof.
  intros s s'.
  destruct (run_alike recognize translate typeErrorMessage c events initial initial)
    as (Hb & Hs & Hl); [done|].
  split; [exact Hb|]. split; [by apply submissions_alike|]. split; [exact Hl|].
  split.
  - intros c'. repeat split. intros d. simpl.
    by destruct (2 <=? Z.of_nat (length (audioBuffers s ++ [d]))).
  - intros c' d. unfold submissions. cbn [step].
    rewrite length_app. cbn [length].
    destruct (2 <=? Z.of_nat (length (audioBuffers s) + 1)); cbn [log];
      [|reflexivity].
    rewrite omap_app. reflexivity.
Qed.

(** A sequence of events of one connection is its own restriction, so the
    independence asked for holds of it on any server. *)
Lemma single_connection_alone
    (recognize : list Byte.byte -> outcome (list (list jsstring)))
    (translate : jsstring -> outcome jsstring) (typeErrorMessage : jsstring)
    (events : list event) (c : socketId) :
  Forall (fun e => socketOf e = Some c) events ->
  audioBuffers (run recognize translate typeErrorMessage events initial)
  = audioBuffers (run recognize translate typeErrorMessage
                    (List.filter (ownedBy c) events) initial).
Proof.
  intros H. f_equal. f_equal. symmetry.
  induction H as [|e events He _ IH]; [reflexivity|].
  cbn [List.filter]. unfold ownedBy at 1. rewrite He, Nat.eqb_refl.
  by rewrite IH.
Qed.

(** C8 fails as stated: a stop from connection 2 discards the fragment
    connection 1 has pending, so that connection 1's two chunks, which alone
    make a batch, are never submitted; and a chunk from connection 2 joins
    connection 1's pending fragment in a batch submitted for connection 2. *)
Lemma C8_counterexample :
  let run := run hearsNothing fixedTranslation noAlternative in
  let events := [AudioChunk 1 [Byte.x01]; StopRecording 2; AudioChunk 1 [Byte.x02]] in
  let alone := List.filter (ownedBy 1) events in
  ~ isolated hearsNothing fixedTranslation noAlternative /\
  alone = [AudioChunk 1 [Byte.x01]; AudioChunk 1 [Byte.x02]] /\
  submissions (run alone initial) = [(1%nat, [Byte.x01; Byte.x02])] /\
  submissions (run events initial) = [] /\
  audioBuffers (run [AudioChunk 1 [Byte.x01]] initial) = [[Byte.x01]] /\
  audioBuffers (run [AudioChunk 1 [Byte.x01]; StopRecording 2] initial) = [] /\
  submissions (run [AudioChunk 1 [Byte.x01]; AudioChunk 2 [Byte.x03]] initial)
  = [(2%nat, [Byte.x01; Byte.x03])].
Proof.
  split; [|vm_compute; repeat split; reflexivity].
  intros H.
  specialize (H [AudioChunk 1 [Byte.x01]; StopRecording 2] 1%nat).
  assert (audioBuffers
            (Server.run hearsNothing fixedTranslation noAlternative
               [AudioChunk 1 [Byte.x01]; StopRecording 2] initial)
          = audioBuffers
              (Server.run hearsNothing fixedTranslation noAlternative
                 (List.filter (ownedBy 1)
                    [AudioChunk 1 [Byte.x01]; StopRecording 2]) initial)) as E.
  { apply H. repeat constructor; discriminate. }
  vm_compute in E. discriminate E.
Qed.

End ServerExamples.

(** * Further properties *)

(** ** More facts about trimming *)

Section TrimFacts.

Implicit Types s : jsstring.

Lemma len_trimStart s : len (trimStart s) <= len s.
Proof.
  unfold len. induction s as [|c s IH]; simpl; [lia|].
  destruct (isWhiteSpace c); simpl; lia.
Qed.

Lemma len_trim s : len (trim s) <= len s.
Proof.
  unfold trim, trimEnd.
  pose proof (len_trimStart (reverse (trimStart s))) as H1.
  pose proof (len_trimStart s) as H2.
  unfold len in *. rewrite length_reverse in *. lia.
Qed.

Lemma trimStart_fixed s :
  (forall c, head s = Some c -> isWhiteSpace c = false) -> trimStart s = s.
Proof.
  destruct s as [|c s]; [reflexivity|]. simpl. intros H.
  by rewrite (H c eq_refl).
Qed.

Lemma trimEnd_fixed s :
  (forall c, last s = Some c -> isWhiteSpace c = false) -> trimEnd s = s.
Proof.
  intros H. unfold trimEnd. rewrite trimStart_fixed.
  - apply reverse_involutive.
  - intros c. rewrite head_reverse. apply H.
Qed.

Lemma trimStart_tail s : trimStart s `suffix_of` s.
Proof.
  induction s as [|d s IH]; simpl; [reflexivity|].
  destruct (isWhiteSpace d); [|reflexivity].
  by apply suffix_cons_r.
Qed.

Lemma trimEnd_front s : trimEnd s `prefix_of` s.
Proof.
  unfold trimEnd. destruct (trimStart_tail (reverse s)) as [k Hk].
  exists (reverse k).
  apply (f_equal reverse) in Hk.
  by rewrite reverse_involutive, reverse_app in Hk.
Qed.

Lemma head_trim s c : head (trim s) = Some c -> isWhiteSpace c = false.
Proof.
  unfold trim. intros H. apply (trimStart_head s).
  destruct (trimEnd_front (trimStart s)) as [k Hk].
  rewrite Hk. destruct (trimEnd (trimStart s)); [discriminate|exact H].
Qed.

Lemma trim_fixed s :
  (forall c, head s = Some c -> isWhiteSpace c = false) ->
  (forall c, last s = Some c -> isWhiteSpace c = false) ->
  trim s = s.
Proof.
  intros Hh Hl. unfold trim. rewrite (trimStart_fixed s Hh).
  by apply trimEnd_fixed.
Qed.

Lemma trim_trim s : trim (trim s) = trim s.
Proof. apply trim_fixed; [apply head_trim|apply last_trim]. Qed.

(** White space in front of a trimmed text is trimmed away. *)
Lemma trim_after_break s : trim (paragraphBreak ++ trim s) = trim s.
Proof.
  unfold trim at 1. change (trimStart (paragraphBreak ++ trim s))
    with (trimStart (trim s)).
  rewrite (trimStart_fixed (trim s)) by apply head_trim.
  apply trimEnd_fixed, last_trim.
Qed.

End TrimFacts.

(** ** Compact policy: size of the accumulators, what is kept *)

Section CompactSizes.

Import Compact CompactForms MoreForms.

Implicit Types (b : buffer) (data : update) (t : Z) (lang : language)
  (s text : jsstring).

Lemma settings_of lang :
  0 <= back lang <= ceiling lang 300 /\ back lang <= threshold lang.
Proof. destruct lang; vm_compute; repeat split; discriminate. Qed.

Lemma truncate_within lang s :
  len s <= ceiling lang 300 -> truncate lang 300 s = s.
Proof.
  intros H. unfold truncate, truncated.
  destruct (len s >? ceiling lang 300) eqn:E; [|reflexivity].
  rewrite Z.gtb_ltb in E. apply Z.ltb_lt in E. lia.
Qed.

(** The cut of a truncation, with the sizes that follow from it. *)
Lemma truncate_cut lang s :
  len s > ceiling lang 300 ->
  exists cut : nat,
    truncate lang 300 s = ellipsis ++ drop cut s /\
    back lang < Z.of_nat cut <= len s - ceiling lang 300 + back lang /\
    (Z.of_nat cut = len s - ceiling lang 300 + back lang
     \/ threshold lang < Z.of_nat cut) /\
    len (truncate lang 300 s) = 3 + len s - Z.of_nat cut.
Proof.
  intros Hlen. destruct (settings_of lang) as (Hback & Hthr).
  destruct (truncated_cut (ceiling lang 300) (back lang) (far lang 300)
              (threshold lang) s Hback (far_threshold lang) Hlen)
    as (cut & Hcut & Heq & Hwhere).
  exists cut. split; [exact Heq|].
  split; [destruct Hwhere as [H|[H _]]; lia|].
  split; [destruct Hwhere as [H|[H _]]; [by left|right; lia]|].
  unfold truncate. rewrite Heq, len_app, len_ellipsis, len_drop by exact Hcut. lia.
Qed.

Lemma truncate_bound lang s :
  len s <= ceiling lang 300 + threshold lang + 1 ->
  len (truncate lang 300 s) <= ceiling lang 300 + 3.
Proof.
  intros Hs. destruct (Z_le_gt_dec (len s) (ceiling lang 300)) as [Hle|Hgt].
  - rewrite truncate_within by exact Hle. lia.
  - destruct (truncate_cut lang s Hgt) as (cut & _ & _ & Hwhere & ->).
    destruct (settings_of lang). lia.
Qed.

Lemma len_joined (continuation : bool) s text :
  len (joined continuation s text) <= len s + 2 + len text.
Proof.
  unfold joined. rewrite !len_app. pose proof (len_trim s).
  destruct continuation; unfold len in *; simpl; lia.
Qed.

Lemma compact_run_snoc events now data :
  run (events ++ [(now, data)]) transcriptionBuffer
  = updateTranscription now data (run events transcriptionBuffer).
Proof. unfold run. by rewrite foldl_app. Qed.

(** X1: as long as every incoming text is at most 96 characters (Arabic;
    116 for English) after trimming, the accumulator never exceeds its
    ceiling plus the three characters of the ellipsis, whatever the
    sequence of updates and their times. *)
Theorem compact_bounded_for_short_texts
    (lang : language) (events : list (Z * update)) :
  (forall e text, e ∈ events ->
     presentText (field lang (snd e)) = Some text -> len text <= slack lang) ->
  len (content lang (run events transcriptionBuffer)) <= ceiling lang 300 + 3.
Proof.
  induction events as [|[now data] events IH] using rev_ind; intros Hshort.
  - destruct lang; vm_compute; discriminate.
  - rewrite compact_run_snoc.
    assert (len (content lang (run events transcriptionBuffer))
            <= ceiling lang 300 + 3) as Hcur.
    { apply IH. intros e text He. apply Hshort, elem_of_app. by left. }
    destruct (presentText (field lang data)) as [text|] eqn:E.
    + rewrite (compact_content lang _ data now text E).
      destruct (compact_settings events) as [_ ->].
      apply truncate_bound.
      pose proof (len_joined
                    (isContinuation now (run events transcriptionBuffer))
                    (content lang (run events transcriptionBuffer)) text) as Hj.
      assert (len text <= slack lang) as Ht.
      { apply (Hshort (now, data)); [|exact E].
        apply elem_of_app. right. by apply list_elem_of_singleton. }
      destruct lang; unfold slack, threshold, ceiling in *;
        change (englishLimit 300) with 240 in *; lia.
    + by rewrite compact_untouched.
Qed.

Lemma compact_bounded_for_short_texts_witness :
  len (content Arabic
         (run [(0, Update (Some bismillah) None);
               (1000, Update (Some arRahmanArRahim) None)]
            transcriptionBuffer)) <= ceiling Arabic 300 + 3.
Proof.
  apply (compact_bounded_for_short_texts Arabic
           [(0, Update (Some bismillah) None);
            (1000, Update (Some arRahmanArRahim) None)]).
  intros e text He Htext.
  apply list_elem_of_In in He. simpl in He.
  destruct He as [<-|[<-|[]]]; injection Htext as <-; vm_compute; discriminate.
Defined.

(** X2: a truncation always shortens the content, by at least 98
    characters (Arabic; 48 for English), and never leaves fewer than 203
    characters (Arabic; 193 for English), ellipsis included. *)
Theorem compact_truncation_size
    (lang : language) (b : buffer) (data : update) (t : Z) (text : jsstring) :
  maxLength b = 300 ->
  presentText (field lang data) = Some text ->
  let pre := joined (isContinuation t b) (content lang b) text in
  len pre > ceiling lang 300 ->
  ceiling lang 300 - back lang + 3
  <= len (content lang (updateTranscription t data b))
  <= len pre - back lang + 2.
Proof.
  intros Hmax Htext pre Hlen.
  rewrite (compact_content lang b data t text Htext), Hmax. fold pre.
  destruct (truncate_cut lang pre Hlen) as (cut & _ & Hcut & _ & ->). lia.
Qed.

Lemma compact_truncation_size_witness :
  let pre := joined (isContinuation 5000 afterFirstSegment)
               (content Arabic afterFirstSegment) (letters 400 0x62) in
  203 <= len (content Arabic (updateTranscription 5000 longSegment afterFirstSegment))
      <= len pre - 98.
Proof.
  apply (compact_truncation_size Arabic afterFirstSegment longSegment 5000
           (letters 400 0x62));
    vm_compute; reflexivity.
Defined.

(** X3: the text just received is never cut: when it has at most 200
    characters (Arabic; 190 for English) after trimming, the accumulator
    ends with it after the update, truncated or not. *)
Theorem compact_keeps_latest_text
    (lang : language) (b : buffer) (data : update) (t : Z) (text : jsstring) :
  maxLength b = 300 ->
  presentText (field lang data) = Some text ->
  len text <= ceiling lang 300 - back lang ->
  text `suffix_of` content lang (updateTranscription t data b).
Proof.
  intros Hmax Htext Hshort.
  rewrite (compact_content lang b data t text Htext), Hmax.
  unfold joined. rewrite app_assoc.
  set (front := trim (content lang b)
                ++ (if isContinuation t b then [space] else paragraphBreak)).
  destruct (Z_le_gt_dec (len (front ++ text)) (ceiling lang 300)) as [Hle|Hgt].
  - rewrite truncate_within by exact Hle. by apply suffix_app_r.
  - destruct (truncate_cut lang (front ++ text) Hgt) as (cut & -> & Hcut & _).
    rewrite len_app in Hcut.
    rewrite drop_app_le by (unfold len in *; lia).
    rewrite app_assoc. by apply suffix_app_r.
Qed.

Lemma compact_keeps_latest_text_witness :
  letters 150 0x62
  `suffix_of` content Arabic
    (updateTranscription 5000 (Update (Some (letters 150 0x62)) None)
       (updateTranscription 0 (Update (Some (letters 200 0x61)) None)
          transcriptionBuffer)).
Proof.
  apply (compact_keeps_latest_text Arabic
           (updateTranscription 0 (Update (Some (letters 200 0x61)) None)
              transcriptionBuffer)
           (Update (Some (letters 150 0x62)) None) 5000 (letters 150 0x62));
    vm_compute; try reflexivity; discriminate.
Defined.

(** X4: in the update that directly follows [clearTranscriptions], a text
    of either language that fits under the ceiling (its trimmed length plus
    the two characters of the break) is stored as a paragraph break
    followed by the trimmed text, whatever the clock says, and the box
    shows exactly the trimmed text. *)
Theorem compact_first_update_after_clear
    (lang : language) (b : buffer) (data : update) (t : Z) (text : jsstring) :
  presentText (field lang data) = Some text ->
  len text + 2 <= ceiling lang (maxLength b) ->
  let b' := updateTranscription t data (clearTranscriptions b) in
  content lang b' = paragraphBreak ++ text /\ Display.display lang b' = text.
Proof.
  intros Htext Hfit b'.
  assert (content lang b' = paragraphBreak ++ text) as Hc.
  { subst b'. rewrite (compact_content lang _ data t text Htext).
    replace (content lang (clearTranscriptions b)) with (@nil N)
      by (by destruct lang).
    change (isContinuation t (clearTranscriptions b))
      with ((t - 0 <? pauseThreshold b) && false).
    rewrite andb_false_r.
    change (maxLength (clearTranscriptions b)) with (maxLength b).
    unfold truncate, truncated, joined. cbn [trim trimStart trimEnd reverse app].
    change (trim []) with (@nil N). cbn [app].
    destruct (len (paragraphBreak ++ text) >? ceiling lang (maxLength b)) eqn:E;
      [|reflexivity].
    rewrite Z.gtb_ltb in E. apply Z.ltb_lt in E.
    rewrite len_app in E. change (len paragraphBreak) with 2 in E. lia. }
  split; [exact Hc|].
  apply presentText_Some in Htext as (Hne & s & _ & ->).
  assert (trim (content lang b') = trim s) as Ht
    by (rewrite Hc; apply trim_after_break).
  destruct lang; unfold Display.display, arabicDisplay, englishDisplay;
    cbn [content] in Ht; rewrite Ht; by destruct (trim s).
Qed.

Lemma compact_first_update_after_clear_witness :
  let b' := updateTranscription 7000 (Update (Some bismillah) None)
              (clearTranscriptions afterFirstSegment) in
  content Arabic b' = paragraphBreak ++ bismillah
  /\ Display.display Arabic b' = bismillah.
Proof.
  apply (compact_first_update_after_clear Arabic afterFirstSegment
           (Update (Some bismillah) None) 7000 bismillah);
    vm_compute; try reflexivity; discriminate.
Defined.

End CompactSizes.

(** ** Cumulative policy: size, shape and contents of the accumulators *)

Section CumulativeShape.

Import Cumulative CumulativeForms MoreForms.

Implicit Types (b : buffer) (data : update) (lang : language) (s text : jsstring).

Lemma cumulative_run_snoc events now data b :
  run (events ++ [(now, data)]) b = updateTranscription now data (run events b).
Proof. unfold run. by rewrite foldl_app. Qed.

Lemma len_capped s : len (capped s) <= 2000.
Proof.
  unfold capped, maxPrayerLength.
  destruct (len s >? 2000) eqn:E; rewrite Z.gtb_ltb in E.
  - apply Z.ltb_lt in E.
    assert (len (slice s (-1500)) = 1500) as Hl
      by (apply (len_slice_tail s 1500); lia).
    rewrite len_app, len_ellipsis, Hl. lia.
  - by apply Z.ltb_ge in E.
Qed.

(** X5: in the cumulative policy an accumulator never holds more than 2000
    characters, from any buffer that starts within that size and after any
    sequence of updates. *)
Theorem cumulative_never_above_2000
    (lang : language) (events : list (Z * update)) (b : buffer) :
  len (content lang b) <= 2000 ->
  len (content lang (run events b)) <= 2000.
Proof.
  intros Hb. induction events as [|[now data] events IH] using rev_ind;
    [exact Hb|].
  rewrite cumulative_run_snoc.
  destruct (presentText (field lang data)) as [text|] eqn:E.
  - rewrite (cumulative_content lang _ data now text E). apply len_capped.
  - by rewrite cumulative_untouched.
Qed.

Lemma cumulative_never_above_2000_witness :
  len (content Arabic
         (run [(0, Update (Some (letters 1900 0x61)) None);
               (9, Update (Some (letters 200 0x62)) None)]
            transcriptionBuffer)) <= 2000.
Proof.
  apply (cumulative_never_above_2000 Arabic
           [(0, Update (Some (letters 1900 0x61)) None);
            (9, Update (Some (letters 200 0x62)) None)] transcriptionBuffer).
  vm_compute. discriminate.
Defined.

(** Texts that do not start with white space. *)
Lemma head_appended s text c :
  (forall d, head s = Some d -> isWhiteSpace d = false) ->
  (forall d, head text = Some d -> isWhiteSpace d = false) ->
  head (appended s text) = Some c -> isWhiteSpace c = false.
Proof.
  intros Hs Ht. unfold appended.
  destruct (truthy (trim s)) eqn:E; [|apply Ht].
  destruct s as [|d s']; [discriminate E|]. simpl. apply Hs.
Qed.

Lemma head_capped s c :
  (forall d, head s = Some d -> isWhiteSpace d = false) ->
  head (capped s) = Some c -> isWhiteSpace c = false.
Proof.
  intros Hs. unfold capped.
  destruct (len s >? maxPrayerLength); [|apply Hs].
  simpl. by intros [= <-].
Qed.

Lemma head_run lang events c :
  head (content lang (run events transcriptionBuffer)) = Some c ->
  isWhiteSpace c = false.
Proof.
  revert c. induction events as [|[now data] events IH] using rev_ind; intros c.
  - by destruct lang.
  - rewrite cumulative_run_snoc.
    destruct (presentText (field lang data)) as [text|] eqn:E.
    + rewrite (cumulative_content lang _ data now text E).
      apply head_capped. intros d. apply head_appended; [exact IH|].
      apply presentText_Some in E as (_ & s & _ & ->). apply head_trim.
    + rewrite cumulative_untouched by exact E. apply IH.
Qed.

(** X6: in the cumulative policy the stored text is always already
    trimmed: from the empty buffer, after any sequence of updates, trimming
    an accumulator changes nothing, so the box shows the accumulator as it
    is, or the placeholder when it is empty. *)
Theorem cumulative_content_is_trimmed
    (lang : language) (events : list (Z * update)) :
  let b := run events transcriptionBuffer in
  trim (content lang b) = content lang b /\
  Display.display lang b
  = (if truthy (content lang b) then content lang b else Legacy.placeholder lang).
Proof.
  intros b.
  assert (trim (content lang b) = content lang b) as Ht.
  { apply trim_fixed; [intros c; apply head_run|apply tidy_run]. }
  split; [exact Ht|].
  destruct lang; unfold Display.display, arabicDisplay, englishDisplay;
    cbn [content] in Ht; rewrite Ht; reflexivity.
Qed.

Lemma appended_ends s text : text `suffix_of` appended s text.
Proof.
  unfold appended. destruct (truthy (trim s)); [|reflexivity].
  rewrite app_assoc. by apply suffix_app_r.
Qed.

(** X7: the text just received is never cut by the cap: when it has at
    most 1500 characters after trimming, the accumulator ends with it. *)
Theorem cumulative_keeps_latest_text
    (lang : language) (b : buffer) (now : Z) (data : update) (text : jsstring) :
  presentText (field lang data) = Some text ->
  len text <= 1500 ->
  text `suffix_of` content lang (updateTranscription now data b).
Proof.
  intros Htext Hshort.
  rewrite (cumulative_content lang b data now text Htext).
  destruct (appended_ends (content lang b) text) as [front Hfront].
  rewrite Hfront. unfold capped, maxPrayerLength.
  destruct (len (front ++ text) >? 2000) eqn:E; [|by apply suffix_app_r].
  rewrite Z.gtb_ltb in E. apply Z.ltb_lt in E.
  rewrite slice_tail by lia. rewrite len_app in E. rewrite length_app.
  rewrite drop_app_le by (unfold len in *; lia).
  rewrite app_assoc. by apply suffix_app_r.
Qed.

Lemma cumulative_keeps_latest_text_witness :
  letters 200 0x62
  `suffix_of` content Arabic
    (updateTranscription 9 (Update (Some (letters 200 0x62)) None)
       (run [(0, Update (Some (letters 1900 0x61)) None)] transcriptionBuffer)).
Proof.
  apply (cumulative_keeps_latest_text Arabic
           (run [(0, Update (Some (letters 1900 0x61)) None)] transcriptionBuffer)
           9 (Update (Some (letters 200 0x62)) None) (letters 200 0x62));
    vm_compute; try reflexivity; discriminate.
Defined.

Lemma join_snoc (sep : jsstring) (xs : list jsstring) (x : jsstring) :
  join sep (xs ++ [x])
  = match xs with [] => x | _ :: _ => join sep xs ++ sep ++ x end.
Proof.
  induction xs as [|y [|z xs] IH]; [reflexivity|reflexivity|].
  change (join sep ((y :: z :: xs) ++ [x]))
    with (y ++ sep ++ join sep ((z :: xs) ++ [x])).
  rewrite IH.
  change (join sep (y :: z :: xs)) with (y ++ sep ++ join sep (z :: xs)).
  by rewrite <- !app_assoc.
Qed.

Lemma join_nonempty (sep : jsstring) (xs : list jsstring) :
  xs <> [] -> Forall (fun x => x <> []) xs -> join sep xs <> [].
Proof.
  destruct xs as [|y [|z xs]]; [done| |]; intros _ H;
    apply Forall_cons in H as [Hy _]; simpl; [exact Hy|].
  by destruct y.
Qed.

Lemma texts_snoc lang events now data :
  texts lang (events ++ [(now, data)])
  = texts lang events
    ++ match presentText (field lang data) with Some t => [t] | None => [] end.
Proof.
  unfold texts. rewrite omap_app. simpl.
  by destruct (presentText (field lang data)).
Qed.

Lemma texts_nonempty lang events :
  Forall (fun x => x <> []) (texts lang events).
Proof.
  induction events as [|[now data] events IH] using rev_ind; [constructor|].
  rewrite texts_snoc. apply Forall_app. split; [exact IH|].
  destruct (presentText (field lang data)) as [t|] eqn:E; [|constructor].
  apply presentText_Some in E as [E _]. by constructor.
Qed.

(** X8: until the cap is reached nothing is lost or reordered: from the
    empty buffer, if the trimmed non-blank texts received so far, joined by
    single spaces, make at most 2000 characters, the accumulator is exactly
    that join. *)
Theorem cumulative_is_join_until_cap
    (lang : language) (events : list (Z * update)) :
  len (join [space] (texts lang events)) <= 2000 ->
  content lang (run events transcriptionBuffer) = join [space] (texts lang events).
Proof.
  induction events as [|[now data] events IH] using rev_ind; intros Hlen.
  - by destruct lang.
  - rewrite cumulative_run_snoc. rewrite texts_snoc in *.
    destruct (presentText (field lang data)) as [text|] eqn:E.
    + rewrite (cumulative_content lang _ data now text E).
      rewrite join_snoc in *.
      destruct (texts lang events) as [|t0 ts] eqn:T.
      * rewrite IH by (vm_compute; discriminate).
        rewrite appended_first by reflexivity.
        unfold capped, maxPrayerLength.
        destruct (len text >? 2000) eqn:G; [|reflexivity].
        rewrite Z.gtb_ltb in G. apply Z.ltb_lt in G. lia.
      * rewrite !len_app in Hlen.
        assert (len text >= 0 /\ len [space] = 1) as [? ?]
          by (unfold len; simpl; lia).
        rewrite IH in * by lia.
        rewrite appended_space.
        -- unfold capped, maxPrayerLength.
           destruct (len (join [space] (t0 :: ts) ++ [space] ++ text) >? 2000) eqn:G;
             [|reflexivity].
           rewrite Z.gtb_ltb in G. apply Z.ltb_lt in G. rewrite !len_app in G. lia.
        -- apply tidy_trim_nonempty.
           ++ rewrite <- IH by lia. apply tidy_run.
           ++ apply join_nonempty; [discriminate|].
              rewrite <- T. apply texts_nonempty.
    + rewrite app_nil_r in *. rewrite cumulative_untouched by exact E.
      by apply IH.
Qed.

Lemma cumulative_is_join_until_cap_witness :
  content Arabic
    (run [(0, Update (Some bismillah) None);
          (500, Update None (Some (lit "In the name of God")));
          (9000, Update (Some (lit "  " ++ arRahmanArRahim)) None)]
       transcriptionBuffer)
  = bismillah ++ [space] ++ arRahmanArRahim.
Proof.
  apply (cumulative_is_join_until_cap Arabic
           [(0, Update (Some bismillah) None);
            (500, Update None (Some (lit "In the name of God")));
            (9000, Update (Some (lit "  " ++ arRahmanArRahim)) None)]).
  vm_compute. discriminate.
Defined.

(** X9: in the cumulative policy the two accumulators do not influence each
    other: what an update does to the accumulator of a language depends only
    on that accumulator and on the update's field for that language. *)
Theorem cumulative_accumulators_independent
    (lang : language) (b b' : buffer) (now now' : Z) (data data' : update) :
  content lang b = content lang b' ->
  field lang data = field lang data' ->
  content lang (updateTranscription now data b)
  = content lang (updateTranscription now' data' b').
Proof.
  intros Hc Hf.
  destruct (presentText (field lang data)) as [text|] eqn:E.
  - rewrite (cumulative_content lang b data now text E).
    rewrite Hf in E. rewrite (cumulative_content lang b' data' now' text E).
    by rewrite Hc.
  - rewrite (cumulative_untouched lang b data now E).
    rewrite Hf in E. by rewrite (cumulative_untouched lang b' data' now' E).
Qed.

Lemma cumulative_accumulators_independent_witness :
  content English
    (updateTranscription 0 (Update (Some bismillah) (Some (lit "peace")))
       transcriptionBuffer)
  = content English
      (updateTranscription 77 (Update None (Some (lit "peace")))
         (setArabic alhamdulillah transcriptionBuffer)).
Proof.
  apply (cumulative_accumulators_independent English transcriptionBuffer
           (setArabic alhamdulillah transcriptionBuffer) 0 77
           (Update (Some bismillah) (Some (lit "peace")))
           (Update None (Some (lit "peace")))); reflexivity.
Defined.

End CumulativeShape.

(** ** What the boxes show *)

Section Boxes.

Implicit Types (b : buffer) (lang : language).



Lemma legacy_run_snoc updates data p :
  Legacy.run (updates ++ [data]) p
  = Legacy.updateTranscription data (Legacy.run updates p).
Proof. unfold Legacy.run. by rewrite foldl_app. Qed.

Lemma legacy_step lang data p :
  Legacy.current lang (Legacy.updateTranscription data p)
  = match field lang data with
    | Some (c :: s) => c :: s
    | _ => Legacy.current lang p
    end
  /\ Legacy.box lang (Legacy.updateTranscription data p)
     = match field lang data with
       | Some (c :: s) =>
           if bool_decide (c :: s = Legacy.current lang p)
           then Legacy.box lang p else c :: s
       | _ => Legacy.box lang p
       end.
Proof.
  destruct data as [a e]. unfold Legacy.updateTranscription.
  destruct lang, a as [[|c s]|], e as [[|c' s']|];
    cbn [field dataArabic dataEnglish Legacy.current Legacy.box truthy andb];
    repeat (case_bool_decide;
            cbn [negb Legacy.currentArabicText Legacy.currentEnglishText
                 Legacy.arabicTranscription Legacy.englishTranscription] in *);
    split; congruence.
Qed.

(** X11: in the first version of the client a box shows the last text
    received for its language that was present and not empty (a text equal
    to the current one is skipped, which changes nothing), or the
    placeholder when no such text has come since [clearTranscriptions]. *)
Theorem legacy_box_shows_last_text
    (lang : language) (updates : list update) (p : Legacy.page) :
  let p' := Legacy.run updates (Legacy.clearTranscriptions p) in
  Legacy.box lang p'
  = default (Legacy.placeholder lang) (Legacy.lastHeard lang updates)
  /\ Legacy.current lang p' = default [] (Legacy.lastHeard lang updates).
Proof.
  induction updates as [|data updates IH] using rev_ind.
  - by destruct lang.
  - cbn zeta in *. rewrite legacy_run_snoc.
    destruct (legacy_step lang data
                (Legacy.run updates (Legacy.clearTranscriptions p))) as [-> ->].
    destruct IH as [IHb IHc]. unfold Legacy.lastHeard in *.
    rewrite omap_app. cbn [omap list_omap].
    destruct (field lang data) as [[|c s]|]; cbn [app];
      rewrite ?app_nil_r; try by split.
    rewrite last_snoc. cbn [default]. split; [|reflexivity].
    case_bool_decide as E; [|reflexivity].
    rewrite IHb. rewrite IHc in E.
    destruct (last _) as [t|]; [by rewrite E|discriminate E].
Qed.

End Boxes.

(** ** The recording controller *)

Section ControllerFacts.

Import Recorder Controller.

Implicit Types (p : page) (data : list Byte.byte).

(** X12: when recording cannot start (the microphone is refused, or the
    recorder cannot be created), the failure is reported in the status
    line but the button keeps the stop label and the [recording] class set
    by the click, [isRecording] stays false, and the next click therefore
    asks the server to start again instead of stopping. When the recorder
    fails after the stream was obtained, the microphone tracks stay live. *)
Theorem failed_start_keeps_stop_button (p : page) (o : startOutcome) :
  isRecording (client p) = false ->
  o <> Started ->
  let p1 := startRecordingSettles o (toggleRecording p) in
  buttonText (client p1) = stopLabel
  /\ classRecording (client p1) = true
  /\ isRecording (client p1) = false
  /\ mediaRecorder (client p1) = mediaRecorder (client p)
  /\ status (client p1) = Some (failedToAccess, Error)
  /\ actions p1 = actions p ++ [EmitStartRecording]
  /\ actions (toggleRecording p1) = actions p1 ++ [EmitStartRecording]
  /\ (o = RecorderFailed -> tracksLive (client p1) = true).
Proof.
  intros Hidle Ho p1.
  assert (isRecording (client p1) = false) as Hstill.
  { subst p1. unfold toggleRecording. rewrite Hidle.
    destruct o; [exact Hidle|exact Hidle|contradiction]. }
  assert (actions (toggleRecording p1) = actions p1 ++ [EmitStartRecording])
    as Hagain.
  { unfold toggleRecording at 1. rewrite Hstill. reflexivity. }
  do 6 (split; [subst p1; unfold toggleRecording; rewrite Hidle;
                destruct o; [| |contradiction];
                first [reflexivity|exact Hidle]|]).
  split; [exact Hagain|].
  intros ->. subst p1. unfold toggleRecording. rewrite Hidle. reflexivity.
Qed.

Lemma failed_start_keeps_stop_button_witness :
  let p := {| client := {| mediaRecorder := false; audioStream := false;
                           isRecording := false; chunks := [];
                           buttonText := startLabel; classRecording := false;
                           classStopped := false; status := None;
                           recorder := Inactive; tracksLive := false |};
              transcript := transcriptionBuffer;
              boxes := {| Display.arabicTranscription := Display.waitingForSpeech;
                          Display.englishTranscription := Display.waitingForTranslation |};
              actions := [] |} in
  buttonText (client (startRecordingSettles Refused (toggleRecording p))) = stopLabel.
Proof.
  intros p.
  destruct (failed_start_keeps_stop_button p Refused) as [H _];
    [reflexivity|discriminate|exact H].
Defined.

Lemma chunks_handled (blobs : list (list Byte.byte)) p :
  let p' := foldl (fun p data => handleAudioChunk data p) p blobs in
  chunks (client p') = chunks (client p) ++ kept blobs
  /\ actions p' = actions p ++ map SendAudioChunk (kept blobs)
  /\ isRecording (client p') = isRecording (client p)
  /\ mediaRecorder (client p') = mediaRecorder (client p).
Proof.
  revert p. induction blobs as [|data blobs IH]; intros p.
  - simpl. by rewrite !app_nil_r.
  - cbn [foldl]. destruct (IH (handleAudioChunk data p)) as (Hc & Ha & Hr & Hm).
    cbn zeta. rewrite Hc, Ha, Hr, Hm. unfold handleAudioChunk, kept.
    cbn [List.filter].
    destruct (0 <? Z.of_nat (length data)); cbn; [|done].
    by rewrite <- !app_assoc.
Qed.

(** X13: every non-empty blob the recorder delivers is sent at once and
    kept; when the recorder stops, the kept blobs are sent a second time,
    concatenated in one fragment, and the list is emptied. Empty blobs are
    neither sent nor kept, and with nothing kept nothing is sent at the
    stop. *)
Theorem stop_resends_kept_chunks (p : page) (blobs : list (list Byte.byte)) :
  chunks (client p) = [] ->
  let p' := onstop (foldl (fun p data => handleAudioChunk data p) p blobs) in
  actions p'
  = actions p ++ map SendAudioChunk (kept blobs)
    ++ match kept blobs with
       | [] => []
       | _ :: _ => [SendAudioChunk (concat (kept blobs))]
       end
  /\ chunks (client p') = []
  /\ isRecording (client p') = false.
Proof.
  intros Hempty.
  destruct (chunks_handled blobs p) as (Hc & Ha & _).
  cbn zeta in *. rewrite Hempty in Hc. cbn [app] in Hc.
  remember (foldl (fun p data => handleAudioChunk data p) p blobs) as q.
  unfold onstop. rewrite Hc.
  destruct (kept blobs) as [|d ds] eqn:K.
  - change (0 <? Z.of_nat (length (@nil (list Byte.byte)))) with false.
    unfold withClient, showStatus. cbn [actions client chunks isRecording].
    rewrite Ha. by rewrite !app_nil_r.
  - change (0 <? Z.of_nat (length (d :: ds))) with true.
    unfold act, withClient, showStatus. cbn [actions client chunks isRecording].
    rewrite Ha. by rewrite <- app_assoc.
Qed.

Lemma stop_resends_kept_chunks_witness :
  let p := {| client := {| mediaRecorder := true; audioStream := true;
                           isRecording := true; chunks := [];
                           buttonText := stopLabel; classRecording := true;
                           classStopped := false; status := None;
                           recorder := Capturing; tracksLive := true |};
              transcript := transcriptionBuffer;
              boxes := {| Display.arabicTranscription := Display.waitingForSpeech;
                          Display.englishTranscription := Display.waitingForTranslation |};
              actions := [] |} in
  actions (onstop (foldl (fun p data => handleAudioChunk data p) p
                     [[Byte.x01]; []; [Byte.x02]]))
  = [SendAudioChunk [Byte.x01]; SendAudioChunk [Byte.x02];
     SendAudioChunk [Byte.x01; Byte.x02]].
Proof.
  intros p.
  destruct (stop_resends_kept_chunks p [[Byte.x01]; []; [Byte.x02]]) as [H _];
    [reflexivity|exact H].
Defined.

Lemma onstop_actions p :
  actions (onstop p)
  = actions p ++ (if 0 <? Z.of_nat (length (chunks (client p)))
                  then [SendAudioChunk (concat (chunks (client p)))] else []).
Proof.
  unfold onstop. destruct (0 <? Z.of_nat (length (chunks (client p))));
    [reflexivity|]. unfold withClient. cbn [actions]. by rewrite app_nil_r.
Qed.

Lemma handleAudioChunk_kept data p :
  data <> [] ->
  actions (handleAudioChunk data p) = actions p ++ [SendAudioChunk data]
  /\ chunks (client (handleAudioChunk data p)) = chunks (client p) ++ [data].
Proof.
  intros Hdata. unfold handleAudioChunk.
  replace (0 <? Z.of_nat (length data)) with true; [by split|].
  symmetry. apply Z.ltb_lt. destruct data; [contradiction|simpl; lia].
Qed.

Lemma toggleRecording_stops p :
  isRecording (client p) = true ->
  actions (toggleRecording p) = actions p ++ [EmitStopRecording]
  /\ client (toggleRecording p)
     = stopRecording (updateButtonState Stopped (client p)).
Proof. intros H. unfold toggleRecording. rewrite H. by split. Qed.

(** X14: a click on the button while recording emits [stop-recording] and
    stops the recorder; a non-empty blob the recorder delivers afterwards is
    sent, and sent again by the recorder's [stop] handler. When the server
    handles these three messages one after the other, with no pipeline call
    returning in between, the stop empties the pending list and the two
    copies make a batch of two, submitted to recognition together. *)
Theorem stop_click_doubles_final_fragment
    (recognize : list Byte.byte -> Server.outcome (list (list jsstring)))
    (translate : jsstring -> Server.outcome jsstring)
    (typeErrorMessage : jsstring)
    (p : page) (data : list Byte.byte) (c : Server.socketId) (s : Server.server) :
  isRecording (client p) = true ->
  mediaRecorder (client p) = true ->
  data <> [] ->
  let p' := onstop (handleAudioChunk data (toggleRecording p)) in
  let sent := [EmitStopRecording; SendAudioChunk data; SendAudioChunk data] in
  actions p' = actions p ++ sent
  /\ recorder (client p') = Inactive
  /\ Server.submissions
       (Server.run recognize translate typeErrorMessage (map (toServer c) sent) s)
     = Server.submissions s ++ [(c, data ++ data)].
Proof.
  intros Hrec Hmr Hdata. cbn zeta.
  destruct (toggleRecording_stops p Hrec) as [Ha Hc].
  destruct (handleAudioChunk_kept data (toggleRecording p) Hdata) as [Ha' Hc'].
  assert (chunks (client (toggleRecording p)) = []) as Hcleared.
  { rewrite Hc. unfold stopRecording, updateButtonState.
    cbn [mediaRecorder isRecording]. by rewrite Hmr, Hrec. }
  rewrite Hcleared in Hc'. cbn [app] in Hc'.
  split; [|split].
  - rewrite onstop_actions, Hc', Ha', Ha.
    change (0 <? Z.of_nat (length [data])) with true.
    cbn [concat]. by rewrite app_nil_r, <- !app_assoc.
  - unfold onstop. by destruct (0 <? _).
  - unfold Server.submissions. simpl.
    rewrite !omap_app. simpl. by rewrite !app_nil_r.
Qed.

Lemma stop_click_doubles_final_fragment_witness :
  let p := {| client := {| mediaRecorder := true; audioStream := true;
                           isRecording := true; chunks := [[Byte.x01]];
                           buttonText := stopLabel; classRecording := true;
                           classStopped := false; status := None;
                           recorder := Capturing; tracksLive := true |};
              transcript := transcriptionBuffer;
              boxes := {| Display.arabicTranscription := Display.waitingForSpeech;
                          Display.englishTranscription := Display.waitingForTranslation |};
              actions := [SendAudioChunk [Byte.x01]] |} in
  actions (onstop (handleAudioChunk [Byte.x02] (toggleRecording p)))
  = [SendAudioChunk [Byte.x01]; EmitStopRecording;
     SendAudioChunk [Byte.x02]; SendAudioChunk [Byte.x02]].
Proof.
  intros p.
  destruct (stop_click_doubles_final_fragment ServerForms.hearsNothing
              ServerForms.fixedTranslation ServerForms.noAlternative
              p [Byte.x02] 1%nat Server.initial) as [H _];
    [reflexivity|reflexivity|discriminate|exact H].
Defined.

End ControllerFacts.

(** ** The server: batches, outcomes, acknowledgements *)

Section ServerBatches.

Import Server ServerForms MoreForms.

Variable recognize : list Byte.byte -> outcome (list (list jsstring)).
Variable translate : jsstring -> outcome jsstring.
Variable typeErrorMessage : jsstring.

Local Abbreviation step := (Server.step recognize translate typeErrorMessage).
Local Abbreviation run := (Server.run recognize translate typeErrorMessage).
Local Abbreviation afterRecognize := (Server.afterRecognize translate typeErrorMessage).

(** What follows recognition is a translation call and one event at most. *)
Lemma afterRecognize_shape (response : outcome (list (list jsstring))) :
  afterRecognize response = []
  \/ (exists message, afterRecognize response = [Emit (ErrorEvent message)])
  \/ (exists text, afterRecognize response = [Translate text; Emit (ErrorEvent
        (lit "Error processing speech: " ++
         match translate text with Throws m => m | Returns _ => [] end))]
      /\ exists m, translate text = Throws m)
  \/ (exists text en, afterRecognize response
                      = [Translate text; Emit (TranscriptionUpdate text en)]).
Proof.
  unfold Server.afterRecognize, errorEvent.
  destruct response as [results|m]; [|right; left; eauto].
  destruct (firstTranscripts typeErrorMessage results) as [ts|m];
    [|right; left; eauto].
  destruct (truthy (join [newline] ts)); [|by left].
  destruct (translate (join [newline] ts)) as [en|m] eqn:T.
  - right. right. right. eauto.
  - right. right. left. exists (join [newline] ts). rewrite T. eauto.
Qed.

Lemma no_submission_after (c : socketId) (response : outcome (list (list jsstring))) :
  omap (fun entry : socketId * effect =>
          match entry with
          | (socket, Recognize audio) => Some (socket, audio)
          | _ => None
          end) (map (pair c) (afterRecognize response)) = [].
Proof.
  destruct (afterRecognize_shape response)
    as [->|[[m ->]|[(t & -> & _)|(t & en & ->)]]]; reflexivity.
Qed.

(** X16: when every pipeline call returns before the next chunk arrives,
    starting with nothing pending and nothing in flight, the fragments of
    a connection are submitted two by two, in order, each exactly once; an
    odd last fragment stays pending. *)
Theorem sequential_chunks_are_paired
    (c : socketId) (fragments : list fragment) (s : server) :
  audioBuffers s = [] ->
  suspended s = [] ->
  let s' := run (sequential c fragments) s in
  submissions s' = submissions s ++ paired c fragments
  /\ audioBuffers s' = unpaired fragments
  /\ suspended s' = [].
Proof.
  cbn zeta. revert s.
  assert (forall rest,
    (forall s, audioBuffers s = [] -> suspended s = [] ->
       submissions (run (sequential c rest) s) = submissions s ++ paired c rest
       /\ audioBuffers (run (sequential c rest) s) = unpaired rest
       /\ suspended (run (sequential c rest) s) = []) /\
    (forall d s, audioBuffers s = [] -> suspended s = [] ->
       submissions (run (sequential c (d :: rest)) s)
       = submissions s ++ paired c (d :: rest)
       /\ audioBuffers (run (sequential c (d :: rest)) s) = unpaired (d :: rest)
       /\ suspended (run (sequential c (d :: rest)) s) = [])) as Hboth.
  { induction rest as [|d2 rest [IH0 IH1]].
    - split.
      + intros s Hb Hs. simpl. by rewrite app_nil_r.
      + intros d [bufs susp lg] Hb Hs. simpl in *. subst.
        unfold submissions. simpl. by rewrite app_nil_r.
    - split; [exact (IH1 d2)|].
      intros d1 [bufs susp lg] Hb Hs. simpl in Hb, Hs. subst.
      change (sequential c (d1 :: d2 :: rest))
        with (AudioChunk c d1 :: AudioChunk c d2 :: Resume 0 :: sequential c rest).
      change (paired c (d1 :: d2 :: rest)) with ((c, d1 ++ d2) :: paired c rest).
      change (unpaired (d1 :: d2 :: rest)) with (unpaired rest).
      unfold Server.run. cbn [foldl].
      set (s3 := step (step (step _ _) _) _).
      destruct (IH0 s3) as (H1 & H2 & H3); [reflexivity|reflexivity|].
      unfold Server.run in *. rewrite H1, H2, H3.
      split; [|by split].
      assert (submissions s3
              = submissions {| audioBuffers := []; suspended := []; log := lg |}
                ++ [(c, d1 ++ d2)]) as ->.
      { subst s3. unfold submissions. simpl.
        rewrite !omap_app, no_submission_after. simpl.
        by rewrite !app_nil_r. }
      by rewrite <- app_assoc. }
  intros s. apply Hboth.
Qed.

(** The outcomes of a run of the pipeline, up to the successful one. *)
Lemma pipeline_outcome_shape (buffers : list fragment) :
  let audio := concat buffers in
  let effects := processAudioChunk recognize translate typeErrorMessage buffers in
  head effects = Some (Recognize audio)
  /\ (length (emissions effects) <= 1)%nat
  /\ (emissions effects = []
      <-> transcription recognize typeErrorMessage audio = Some [])
  /\ (existsb isError (emissions effects) = true
      <-> transcription recognize typeErrorMessage audio = None
          \/ exists text m,
               transcription recognize typeErrorMessage audio = Some text
               /\ text <> [] /\ translate text = Throws m)
  /\ (forall message, ErrorEvent message ∈ emissions effects ->
      exists m, message = lit "Error processing speech: " ++ m).
Proof.
  intros audio effects. subst effects.
  unfold processAudioChunk, transcription, Server.afterRecognize, errorEvent.
  fold audio. split; [reflexivity|].
  destruct (recognize audio) as [results|m].
  2: { cbn. repeat split; try discriminate; try lia; eauto.
       intros message H. apply list_elem_of_singleton in H as [= ->]. eauto. }
  destruct (firstTranscripts typeErrorMessage results) as [ts|m].
  2: { cbn. repeat split; try discriminate; try lia; eauto.
       intros message H. apply list_elem_of_singleton in H as [= ->]. eauto. }
  destruct (join [newline] ts) as [|u r] eqn:E; cbn [truthy].
  { cbn. repeat split; try discriminate; try lia; eauto.
    - intros [H|(t & m & H & Ht & _)]; [discriminate|congruence].
    - intros message H. by apply elem_of_nil in H. }
  destruct (translate (u :: r)) as [en|m] eqn:T; cbn.
  - repeat split; try discriminate; try lia.
    + intros [H|(t & m & [= <-] & _ & H)]; [discriminate|congruence].
    + intros message H. apply list_elem_of_singleton in H. discriminate.
  - repeat split; try discriminate; try lia.
    + intros _. right. exists (u :: r), m. by repeat split.
    + intros message H. apply list_elem_of_singleton in H as [= ->]. eauto.
Qed.

Lemma pipeline_update_iff (buffers : list fragment) (ar en : jsstring) :
  emissions (processAudioChunk recognize translate typeErrorMessage buffers)
  = [TranscriptionUpdate ar en]
  <-> transcription recognize typeErrorMessage (concat buffers) = Some ar
      /\ ar <> [] /\ translate ar = Returns en.
Proof.
  unfold processAudioChunk, transcription, Server.afterRecognize, errorEvent.
  destruct (recognize (concat buffers)) as [results|m];
    [|cbn; intuition congruence].
  destruct (firstTranscripts typeErrorMessage results) as [ts|m];
    [|cbn; intuition congruence].
  destruct (join [newline] ts) as [|u r] eqn:E; cbn [truthy];
    [cbn; intuition congruence|].
  destruct (translate (u :: r)) as [en'|m] eqn:T; cbn; intuition congruence.
Qed.

(** X17: a run of the pipeline calls recognition first and emits at most
    one event: nothing exactly when the transcript is the empty string, an
    error event (whose message starts with the fixed prefix) exactly when
    recognition, the reading of a first alternative or translation throws,
    and one [transcription-update], carrying the transcript and its
    translation, exactly when recognition gives a transcript that is not
    the empty string and translation succeeds. *)
Theorem pipeline_emits_one_outcome (buffers : list fragment) :
  let audio := concat buffers in
  let effects := processAudioChunk recognize translate typeErrorMessage buffers in
  head effects = Some (Recognize audio)
  /\ (length (emissions effects) <= 1)%nat
  /\ (emissions effects = []
      <-> transcription recognize typeErrorMessage audio = Some [])
  /\ (existsb isError (emissions effects) = true
      <-> transcription recognize typeErrorMessage audio = None
          \/ exists text m,
               transcription recognize typeErrorMessage audio = Some text
               /\ text <> [] /\ translate text = Throws m)
  /\ (forall message, ErrorEvent message ∈ emissions effects ->
      exists m, message = lit "Error processing speech: " ++ m)
  /\ (forall ar en,
        emissions effects = [TranscriptionUpdate ar en]
        <-> transcription recognize typeErrorMessage audio = Some ar
            /\ ar <> [] /\ translate ar = Returns en)
  /\ (emissions effects = []
      \/ (exists message, emissions effects = [ErrorEvent message])
      \/ (exists ar en, emissions effects = [TranscriptionUpdate ar en])).
Proof.
  intros audio effects.
  destruct (pipeline_outcome_shape buffers) as (H1 & H2 & H3 & H4 & H5).
  do 5 (split; [assumption|]).
  split; [intros ar en; apply pipeline_update_iff|].
  subst effects. unfold processAudioChunk.
  destruct (afterRecognize_shape (recognize (concat buffers)))
    as [E|[[m E]|[(t & E & _)|(t & en & E)]]];
    unfold Server.afterRecognize in *; rewrite E; cbn; eauto.
Qed.

Lemma no_acknowledgement_after (ack : emitted) (c c' : socketId)
    (response : outcome (list (list jsstring))) :
  List.filter (acknowledges ack c) (map (pair c') (afterRecognize response)) = [].
Proof.
  destruct (afterRecognize_shape response)
    as [->|[[m ->]|[(t & -> & _)|(t & en & ->)]]]; by destruct ack.
Qed.

(** X18: every [start-recording] and [stop-recording] is acknowledged
    exactly once, on the socket it came from: after any sequence of events
    the log holds as many [recording-started] (resp. [recording-stopped])
    for a socket as that socket sent requests; chunks, disconnects and
    returning pipeline calls add none. *)
Theorem acknowledgements_match_requests
    (ack : emitted) (c : socketId) (events : list event) :
  length (List.filter (acknowledges ack c) (log (run events initial)))
  = length (List.filter (requests ack c) events).
Proof.
  induction events as [|e events IH] using rev_ind; [reflexivity|].
  unfold Server.run in *. rewrite foldl_app. cbn [foldl].
  rewrite List.filter_app, length_app, <- IH.
  set (s := foldl step initial events).
  destruct e as [c'|c' d|c'|c'|k]; cbn [Server.step].
  - cbn [log]. rewrite List.filter_app, length_app.
    destruct ack; cbn; try destruct (Nat.eqb c c'); reflexivity.
  - destruct (2 <=? Z.of_nat (length (audioBuffers s ++ [d]))); cbn [log].
    + rewrite List.filter_app, length_app. destruct ack; cbn; lia.
    + destruct ack; cbn; lia.
  - cbn [log]. rewrite List.filter_app, length_app.
    destruct ack; cbn; try destruct (Nat.eqb c c'); reflexivity.
  - destruct ack; cbn; lia.
  - destruct (suspended s !! k) as [[c' a]|]; cbn [log].
    + rewrite List.filter_app, length_app, no_acknowledgement_after.
      destruct ack; cbn; lia.
    + destruct ack; cbn; lia.
Qed.

End ServerBatches.

Section ServerBatchExamples.

Import Server ServerForms MoreForms.

Lemma quiet_batch_of_two_witness :
  submissions
    (step hearsNothing fixedTranslation noAlternative
       (run hearsNothing fixedTranslation noAlternative
          [AudioChunk 1 [Byte.x01]] initial)
       (AudioChunk 1 [Byte.x02]))
  = [(1%nat, [Byte.x01; Byte.x02])].
Proof.
  destruct (quiet_batch_of_two hearsNothing fixedTranslation noAlternative
              [AudioChunk 1 [Byte.x01]] 1%nat [Byte.x02]) as [_ H];
    [reflexivity|].
  apply (H [Byte.x01]). reflexivity.
Defined.

Lemma pipeline_emits_one_outcome_witness :
  exists m, lit "Error processing speech: quota exceeded"
            = lit "Error processing speech: " ++ m.
Proof.
  destruct (pipeline_emits_one_outcome (fun _ => Throws (lit "quota exceeded"))
              fixedTranslation noAlternative [[Byte.x01]; [Byte.x02]])
    as (_ & _ & _ & _ & H & _).
  apply H. apply list_elem_of_singleton. reflexivity.
Defined.

Lemma sequential_chunks_are_paired_witness :
  submissions
    (run hearsNothing fixedTranslation noAlternative
       (sequential 1 [[Byte.x01]; [Byte.x02]; [Byte.x03]]) initial)
  = [(1%nat, [Byte.x01; Byte.x02])].
Proof.
  destruct (sequential_chunks_are_paired hearsNothing fixedTranslation
              noAlternative 1%nat [[Byte.x01]; [Byte.x02]; [Byte.x03]] initial)
    as [H _]; [reflexivity|reflexivity|exact H].
Defined.

End ServerBatchExamples.

(** ** The fullscreen modes *)

Section FullscreenFacts.

Import Fullscreen.

Lemma apply_coherent (d : Display.boxes) (v : view) (m : move) :
  coherent v -> coherent (apply d v m).
Proof.
  unfold coherent, apply, enterIndividualFullscreen, exitIndividualFullscreen,
    enterFullscreen, exitFullscreen.
  destruct v as [isF lang timeout isI [[|]|] hid ahid ehid t1 t2 t3 st cs];
    cbn [isFullscreen individualFullscreenType isIndividualFullscreen
         overlayHidden arabicOverlayHidden englishOverlayHidden fullscreenTimeout];
    intros (-> & -> & -> & ->);
    destruct m as [l|f|[|] f|]; destruct isF; cbn; repeat split.
Qed.

(** X19: the overlays always agree with the mode flags. From a coherent
    view (such as the page as loaded) and after any sequence of entering
    and leaving the two modes, the prayer overlay is shown exactly when
    prayer mode is on and at most one individual overlay is shown, the one
    of the recorded type. Entering an individual fullscreen then always
    ends prayer mode and shows the text of the chosen box. *)
Theorem fullscreen_overlays_stay_coherent
    (moves : list (Display.boxes * move)) (v : view) :
  coherent v ->
  let v' := foldl (fun v m => apply (fst m) v (snd m)) v moves in
  coherent v' /\
  forall (type : language) (documentFullscreen : bool) (d : Display.boxes),
    let w := enterIndividualFullscreen type documentFullscreen d v' in
    coherent w
    /\ isFullscreen w = false
    /\ overlayHidden w = true
    /\ individualFullscreenType w = Some type
    /\ match type with
       | Arabic => arabicFullscreenText w
       | English => englishFullscreenText w
       end = Display.box type d.
Proof.
  intros Hv. cbn zeta.
  assert (coherent (foldl (fun v m => apply (fst m) v (snd m)) v moves)) as Hc.
  { revert v Hv. induction moves as [|[d m] moves IH]; intros v Hv; [exact Hv|].
    cbn [foldl fst snd]. by apply IH, apply_coherent. }
  split; [exact Hc|]. intros type f d.
  split; [exact (apply_coherent d _ (EnterIndividualFullscreen type f) Hc)|].
  destruct Hc as [Hov _]. revert Hov.
  generalize (foldl (fun v m => apply (fst m) v (snd m)) v moves). intros u Hov.
  unfold enterIndividualFullscreen, exitIndividualFullscreen, exitFullscreen.
  destruct (isFullscreen u) eqn:F, (isIndividualFullscreen u) eqn:I, type;
    cbn [isFullscreen isIndividualFullscreen overlayHidden negb
         individualFullscreenType arabicFullscreenText englishFullscreenText];
    rewrite ?F, ?I; cbn [negb isFullscreen overlayHidden]; rewrite ?Hov, ?F;
    repeat split.
Qed.

Lemma fullscreen_overlays_stay_coherent_witness :
  let d := {| Display.arabicTranscription := bismillah;
              Display.englishTranscription := lit "In the name of God" |} in
  coherent (foldl (fun v m => apply (fst m) v (snd m)) closed
              [(d, EnterFullscreen Arabic);
               (d, EnterIndividualFullscreen English true);
               (d, EnterIndividualFullscreen Arabic false)]).
Proof.
  intros d.
  apply (fullscreen_overlays_stay_coherent
           [(d, EnterFullscreen Arabic);
            (d, EnterIndividualFullscreen English true);
            (d, EnterIndividualFullscreen Arabic false)] closed).
  vm_compute. repeat split.
Defined.

End FullscreenFacts.
